(** * consav.newton_raphson: the optimizer and its derivative estimators

    A shallow embedding of [src/consav/newton_raphson.py].

    - Numbers.  The code computes on float64; here every number is an exact
      rational ([Q]), so rounding, NaN and infinities are left out.
    - Arrays.  A one-dimensional [numpy.ndarray] is a reference into a store
      of buffers.  Basic slicing [a[:]] yields a view on the same buffer,
      [a[:] = v] copies into it, so the store keeps who shares what.  The
      two-dimensional [hess] is only ever reached through its one name and
      is passed along as a value.
    - Exceptions.  A computation ends in a value or in a raised exception;
      the store it leaves behind is kept in both cases.
    - Observations.  The state also carries a ghost trace of what a run did
      (objective calls, iterations begun, convergence tests, commits); the
      code never reads it.
    - [obj] is the user's objective with its [*args] fixed, a pure function
      of the contents of the array it is called on.  [np.linalg.det] and
      [np.linalg.inv] are library code: both are parameters, and the inverse
      may fail, which raises [LinAlgError]. *)

From Stdlib Require Import QArith Qabs ZArith Lia List.
From stdpp Require Import base list.
Import ListNotations.

Open Scope Q_scope.

(** ** Values *)

Abbreviation loc := nat (only parsing).
Abbreviation ndarray := (list Q) (only parsing).
(* row major, as np.zeros((n,m)) *)
Abbreviation matrix := (list (list Q)) (only parsing).

Inductive exn := IndexError | ValueError | LinAlgError.

Inductive res (A : Type) :=
| Ok (a : A)
| Raise (e : exn).
Arguments Ok {A} a.
Arguments Raise {A} e.

Inductive event :=
| EvIter (it : nat)
| EvCall (x : ndarray)
| EvCheck (it : nat) (x_min : ndarray) (f_min : Q) (x_now : ndarray) (f_now : Q)
| EvCommit (x : ndarray) (f : Q).

Record state := mkState { heap : list ndarray; trace : list event }.

(** ** The monad of the embedding: state and exceptions *)

Definition M (A : Type) := state -> res A * state.

Definition ret {A} (a : A) : M A := fun s => (Ok a, s).
Definition raise {A} (e : exn) : M A := fun s => (Raise e, s).
Definition bind {A B} (m : M A) (f : A -> M B) : M B :=
  fun s => match m s with
           | (Ok a, s') => f a s'
           | (Raise e, s') => (Raise e, s')
           end.
Definition lift {A} (r : res A) : M A := fun s => (r, s).

Declare Scope m_scope.
Delimit Scope m_scope with m.
Notation "'do' x <- c1 ; c2" := (bind c1 (fun x => c2))
  (at level 10, x name, c1 at level 100, c2 at level 200) : m_scope.
Notation "'exec' c1 ; c2" := (bind c1 (fun _ => c2))
  (at level 10, c1 at level 100, c2 at level 200) : m_scope.
Open Scope m_scope.

(** ** Scalar operations *)

Definition Qltb (a b : Q) : bool := negb (Qle_bool b a).
Definition Qgeb (a b : Q) : bool := Qle_bool b a.

(* np.fmax on two scalars *)
Definition fmax (a b : Q) : Q := if Qle_bool a b then b else a.

(* np.sign *)
Definition sign (a : Q) : Q := inject_Z (Z.sgn (Qnum a)).

(* the step of both estimators: np.fmax(grad_step*xi,grad_step) *)
Definition step_of (grad_step xi : Q) : Q := fmax (grad_step * xi) grad_step.

(** ** Array operations *)

(* np.zeros(n), np.zeros((n,m)) *)
Definition zeros (n : nat) : ndarray := replicate n 0.
Definition zeros2 (n m : nat) : matrix := replicate n (zeros m).

(* an elementwise binary operation with numpy's broadcasting of shapes
   (n,) and (m,): equal lengths, or one of them of length 1 *)
Definition broadcast2 (op : Q -> Q -> Q) (a b : ndarray) : res ndarray :=
  if Nat.eqb (length a) (length b) then Ok (zip_with op a b)
  else match a, b with
       | [a0], _ => Ok (map (op a0) b)
       | _, [b0] => Ok (map (fun x => op x b0) a)
       | _, _ => Raise ValueError
       end.

(* the value stored by dst[:] = src *)
Definition broadcast_to (dst src : ndarray) : res ndarray :=
  if Nat.eqb (length src) (length dst) then Ok src
  else match src with
       | [s0] => Ok (replicate (length dst) s0)
       | _ => Raise ValueError
       end.

(* np.amax on a one-dimensional array *)
Definition amax (a : ndarray) : res Q :=
  match a with
  | [] => Raise ValueError
  | a0 :: a' => Ok (fold_left fmax a' a0)
  end.

Definition dot (a b : ndarray) : Q := fold_right Qplus 0 (zip_with Qmult a b).

(* A @ v for a two-dimensional A and a one-dimensional v *)
Definition matvec (A : matrix) (v : ndarray) : res ndarray :=
  if forallb (fun row => Nat.eqb (length row) (length v)) A
  then Ok (map (fun row => dot row v) A)
  else Raise ValueError.

(* the value of H after H[:,i] = col *)
Definition set_col (H : matrix) (i : nat) (col : ndarray) : res matrix :=
  if forallb (fun row => Nat.ltb i (length row)) H then
    if Nat.eqb (length col) (length H)
    then Ok (zip_with (fun row c => <[i:=c]> row) H col)
    else match col with
         | [c] => Ok (map (fun row => <[i:=c]> row) H)
         | _ => Raise ValueError
         end
  else Raise IndexError.

Definition square (n : nat) (H : matrix) : Prop :=
  length H = n /\ Forall (fun row => length row = n) H.

(** ** Store operations *)

(* the buffer behind a reference; a reference the store does not hold
   reads as the empty array *)
Definition buf (s : state) (l : loc) : ndarray := default [] (heap s !! l).

Definition upd (l : loc) (v : ndarray) (s : state) : state :=
  mkState (<[l:=v]> (heap s)) (trace s).

(* the state with more events in its trace *)
Definition log (evs : list event) (s : state) : state :=
  mkState (heap s) (trace s ++ evs).

Definition emit (e : event) : M unit := fun s => (Ok tt, log [e] s).

(* np.zeros(n) bound to a fresh reference *)
Definition alloc (v : ndarray) : M loc :=
  fun s => (Ok (length (heap s)), mkState (heap s ++ [v]) (trace s)).

(* the whole array a *)
Definition deref (a : loc) : M ndarray := fun s => (Ok (buf s a), s).

(* a[:] : a view of the whole of a, on the same buffer *)
Definition view (a : loc) : loc := a.

(* a.size *)
Definition size (a : loc) : M nat := fun s => (Ok (length (buf s a)), s).

(* a[i] *)
Definition getitem (a : loc) (i : nat) : M Q :=
  fun s => match buf s a !! i with
           | Some v => (Ok v, s)
           | None => (Raise IndexError, s)
           end.

(* a[i] = v *)
Definition setitem (a : loc) (i : nat) (v : Q) : M unit :=
  fun s => if Nat.ltb i (length (buf s a))
           then (Ok tt, upd a (<[i:=v]> (buf s a)) s)
           else (Raise IndexError, s).

(* a[:] = v *)
Definition setslice (a : loc) (v : ndarray) : M unit :=
  fun s => match broadcast_to (buf s a) v with
           | Ok w => (Ok tt, upd a w s)
           | Raise e => (Raise e, s)
           end.

(* for i in range(start, start+count): body(i) *)
Fixpoint for_range (start count : nat) (body : nat -> M unit) : M unit :=
  match count with
  | O => ret tt
  | S c => exec body start; for_range (S start) c body
  end.

(* the same loop, threading a value through the iterations *)
Fixpoint fold_range {S : Type} (start count : nat) (body : nat -> S -> M S)
    (acc : S) : M S :=
  match count with
  | O => ret acc
  | S c => do acc' <- body start acc; fold_range (Datatypes.S start) c body acc'
  end.

(** ** The estimators and the optimizer *)

Inductive control := Break | Continue.

Record config := mkConfig {
  max_iter : nat;
  grad_step : Q;
  tol_fun : Q;
  tol_x : Q
}.

Record buffers := mkBuffers {
  x_min : loc; x_now : loc; x_grad : loc; x_hess : loc;
  grad : loc; grad_hess : loc
}.

Section Optimizer.

Variable obj : ndarray -> Q.
Variable det : matrix -> Q.
Variable inv : matrix -> option matrix.

(* obj(p,*args) on the array value p *)
Definition eval_obj (p : ndarray) : M Q :=
  exec emit (EvCall p); ret (obj p).

(* obj(x,*args) on the array x refers to *)
Definition call_obj (x : loc) : M Q :=
  do p <- deref x; eval_obj p.

(* np.linalg.inv(H), which raises LinAlgError where it finds no inverse *)
Definition linalg_inv (H : matrix) : M matrix :=
  match inv H with
  | Some Hi => ret Hi
  | None => raise LinAlgError
  end.

(* one turn of the loop of num_grad *)
Definition num_grad_body (x : loc) (grad_step f0 : Q) (grad x_grad : loc)
    (i : nat) : M unit :=
  do xi <- getitem x i;
  let step_now := step_of grad_step xi in
  let x_grad := view x in
  exec setitem x_grad i (xi + step_now);
  do fx <- call_obj x_grad;
  setitem grad i ((fx - f0) / step_now).

Definition num_grad (x : loc) (grad_step f0 : Q) (grad x_grad : loc) : M unit :=
  do n <- size x;
  for_range 0 n (num_grad_body x grad_step f0 grad x_grad).

(* one turn of the loop of num_hess *)
Definition num_hess_body (x : loc) (grad_step : Q) (grad : loc)
    (x_grad x_hess grad_hess : loc) (i : nat) (hess : matrix) : M matrix :=
  do xi <- getitem x i;
  let step_now := step_of grad_step xi in
  do xv <- deref (view x);
  exec setslice x_hess xv;
  exec setitem x_hess i (xi + step_now);
  do f0 <- call_obj x_hess;
  exec num_grad x_hess grad_step f0 grad_hess x_grad;
  do gh <- deref grad_hess;
  do g <- deref grad;
  do diff <- lift (broadcast2 Qminus gh g);
  lift (set_col hess i (map (fun a => a / step_now) diff)).

Definition num_hess (x : loc) (grad_step : Q) (grad : loc) (hess : matrix)
    (x_grad x_hess grad_hess : loc) : M matrix :=
  do n <- size x;
  fold_range 0 n (num_hess_body x grad_step grad x_grad x_hess grad_hess) hess.

Variable cfg : config.
Variable b : buffers.

(* a. gradient and hess *)
Definition derivatives (f_min : Q) (hess : matrix) : M matrix :=
  exec num_grad (x_min b) (grad_step cfg) f_min (grad b) (x_grad b);
  num_hess (x_min b) (grad_step cfg) (grad b) hess
           (x_grad b) (x_hess b) (grad_hess b).

(* b. direction *)
Definition direction (hess : matrix) : M ndarray :=
  let hess_det := det hess in
  do hess_inv <- linalg_inv hess;
  do g <- deref (grad b);
  do p <- lift (matvec hess_inv g);
  ret (map (Qmult (- sign hess_det)) p).

(* c. update *)
Definition update (d : ndarray) : M Q :=
  do xm <- deref (view (x_min b));
  do s <- lift (broadcast2 Qplus xm d);
  exec setslice (x_now b) s;
  call_obj (x_now b).

(* d. check for convergence: the test of the if, with short-circuit or *)
Definition converged (it : nat) (f_now f_min : Q) : M bool :=
  do xn <- deref (x_now b);
  do xm <- deref (x_min b);
  exec emit (EvCheck it xm f_min xn f_now);
  if Qltb (Qabs (f_now - f_min)) (tol_fun cfg) then ret true
  else
    do diff <- lift (broadcast2 Qminus xn xm);
    do m <- lift (amax (map Qabs diff));
    if Qltb m (tol_x cfg) then ret true
    else ret (Z.leb (Z.of_nat (max_iter cfg) - 1) (Z.of_nat it)).

(* x_min[:] = x_now[:] ; f_min = f_now *)
Definition commit (f_now : Q) : M Q :=
  do xn <- deref (view (x_now b));
  exec setslice (x_min b) xn;
  exec emit (EvCommit xn f_now);
  ret f_now.

(* e. line-search *)
Definition line_search (f_now f_min : Q) : M Q :=
  if Qgeb f_now f_min then
    do xm <- deref (view (x_min b));
    do xn <- deref (view (x_now b));
    do s <- lift (broadcast2 Qplus xm xn);
    let x_step := map (Qmult (1#2)) s in
    do f_step <- eval_obj x_step;
    if Qltb f_step f_now then
      exec setslice (x_now b) x_step;
      ret f_step
    else ret f_now
  else ret f_now.

(* the body of the for loop; the value says how the turn ended and gives
   the f_min and hess the next turn starts from *)
Definition iteration (it : nat) (f_min : Q) (hess : matrix)
    : M (control * Q * matrix) :=
  exec emit (EvIter it);
  do hess <- derivatives f_min hess;
  do d <- direction hess;
  do f_now <- update d;
  do stop <- converged it f_now f_min;
  if stop then
    do f_min <- commit f_now;
    ret (Break, f_min, hess)
  else
    do f_now <- line_search f_now f_min;
    do f_min <- commit f_now;
    ret (Continue, f_min, hess).

(* for it in range(it, it+fuel) *)
Fixpoint iterate (fuel it : nat) (f_min : Q) (hess : matrix) : M unit :=
  match fuel with
  | O => ret tt
  | S fuel' =>
      do r <- iteration it f_min hess;
      match r with
      | (Break, _, _) => ret tt
      | (Continue, f_min', hess') => iterate fuel' (S it) f_min' hess'
      end
  end.

End Optimizer.

Section Run.

Variable obj : ndarray -> Q.
Variable det : matrix -> Q.
Variable inv : matrix -> option matrix.
Variable cfg : config.

Definition newton_raphson (x0 : loc) : M loc :=
  do dim <- size x0;
  (* allocate *)
  do x_min <- alloc (zeros dim);
  do x_now <- alloc (zeros dim);
  do x_grad <- alloc (zeros dim);
  do x_hess <- alloc (zeros dim);
  do grad <- alloc (zeros dim);
  do grad_hess <- alloc (zeros dim);
  let hess := zeros2 dim dim in
  (* initial values *)
  exec for_range 0 dim (fun i => do v <- getitem x0 i; setitem x_min i v);
  do f_min <- call_obj obj x_min;
  (* iterate *)
  exec iterate obj det inv cfg
       (mkBuffers x_min x_now x_grad x_hess grad grad_hess)
       (max_iter cfg) 0 f_min hess;
  ret x_min.

End Run.

(* the optimizer for obj with the options bound *)
Definition create_optimizer (obj : ndarray -> Q) (det : matrix -> Q)
    (inv : matrix -> option matrix)
    (max_iter : nat) (grad_step tol_fun tol_x : Q) : loc -> M loc :=
  newton_raphson obj det inv (mkConfig max_iter grad_step tol_fun tol_x).

(** ** Exact linear algebra, for running the optimizer on examples

    Reference versions of [np.linalg.det] and [np.linalg.inv] in exact
    arithmetic: cofactor expansion along the first row, and the adjugate
    over the determinant.  [inv_exact] finds no inverse exactly where the
    matrix is not square or its determinant is zero. *)

Definition drop_at {A} (j : nat) (l : list A) : list A := take j l ++ drop (S j) l.

Definition minor (i j : nat) (H : matrix) : matrix := map (drop_at j) (drop_at i H).

Definition alt (k : nat) : Q := if Nat.even k then 1 else -1.

Fixpoint laplace (n : nat) (H : matrix) : Q :=
  match n, H with
  | S n', r0 :: _ =>
      fold_right Qplus 0
        (imap (fun j a => alt j * a * laplace n' (minor 0 j H)) r0)
  | _, _ => 1
  end.

Definition det_exact (H : matrix) : Q := laplace (length H) H.

Definition is_square (H : matrix) : bool :=
  forallb (fun row => Nat.eqb (length row) (length H)) H.

Definition inv_exact (H : matrix) : option matrix :=
  let d := det_exact H in
  if is_square H && negb (Qeq_bool d 0) then
    Some (map (fun i =>
            map (fun j => alt (i + j) * det_exact (minor j i H) / d)
                (seq 0 (length H)))
          (seq 0 (length H)))
  else None.

(** ** Inputs of the examples *)

(* obj(x) = x[0]*x[1] *)
Definition product (v : ndarray) : Q :=
  match v with
  | [a; c] => a * c
  | _ => 0
  end.

(* obj(x) = x[0]**4 - 3*x[0]**2 *)
Definition double_well (v : ndarray) : Q :=
  match v with
  | [x] => x * x * x * x - 3 * (x * x)
  | _ => 0
  end.

(* obj(x) = 1 *)
Definition constant_one (v : ndarray) : Q := 1.

(* create_optimizer(obj,max_iter=2,grad_step=1.0) *)
Definition coarse_config : config :=
  mkConfig 2 1 (1 # 1000000) (1 # 100000).

(* a run of the optimizer on double_well from x0 = [-1], at the start of
   its first iteration: x0 at 0 and the six buffers after it *)
Definition run_buffers : buffers := mkBuffers 1 2 3 4 5 6.

Definition first_iteration_state : state :=
  mkState [[-1]; [-1]; [0]; [0]; [0]; [0]; [0]] [EvCall [-1]].

Definition first_iteration : res (control * Q * matrix) * state :=
  iteration double_well det_exact inv_exact coarse_config run_buffers
    0 (-2) [[0]] first_iteration_state.

Definition value_of {A} (d : A) (r : res A) : A :=
  match r with
  | Ok a => a
  | Raise _ => d
  end.

(* the f_min and the hess the first iteration hands to the second *)
Definition first_iteration_f_min : Q :=
  snd (fst (value_of (Break, 0, []) (fst first_iteration))).

Definition first_iteration_hess : matrix :=
  snd (value_of (Break, 0, []) (fst first_iteration)).





(* the whole run *)
Definition double_well_run : res loc * state :=
  newton_raphson double_well det_exact inv_exact coarse_config 0
    (mkState [[-1]] []).

(** ** Vocabulary of the statements *)

(** [frame P s s']: from [s] to [s'] no buffer was allocated or resized,
    and only buffers whose reference satisfies [P] may hold new values. *)
Definition frame (P : loc -> Prop) (s s' : state) : Prop :=
  (length (heap s') = length (heap s) /\
   (forall l, length (buf s' l) = length (buf s l)) /\
   (forall l, ~ P l -> buf s' l = buf s l))%nat.

(** [writes_in P m]: whatever the state and however it ends, [m] allocates
    nothing and leaves every buffer whose reference is outside [P] as it
    found it. *)
Definition writes_in {A} (P : loc -> Prop) (m : M A) : Prop :=
  forall s,
    length (heap (snd (m s))) = length (heap s) /\
    (forall l, ~ P l -> heap (snd (m s)) !! l = heap s !! l) /\
    exists evs, trace (snd (m s)) = trace s ++ evs.

(* a coordinate moved by its step *)
Definition pert (h x : Q) : Q := x + step_of h x.

(* xs with its first k coordinates moved by their steps *)
Definition perturbed (h : Q) (k : nat) (xs : ndarray) : ndarray :=
  imap (fun j xj => if Nat.ltb j k then pert h xj else xj) xs.

(* what num_grad leaves in grad, and where it calls obj, from x = xs *)
Definition num_grad_values (obj : ndarray -> Q) (h f0 : Q) (xs : ndarray) : ndarray :=
  imap (fun j xj => (obj (perturbed h (S j) xs) - f0) / step_of h xj) xs.

Definition num_grad_calls (h : Q) (xs : ndarray) : list ndarray :=
  map (fun j => perturbed h (S j) xs) (seq 0 (length xs)).

(** [ready ls n s]: the references [ls] are pairwise distinct and each
    refers to a buffer of [n] numbers in the store of [s]. *)
Definition ready (ls : list loc) (n : nat) (s : state) : Prop :=
  NoDup ls /\
  Forall (fun l => (l < length (heap s))%nat /\ length (buf s l) = n) ls.

(* the references an optimizer run works on *)
Definition refs (b : buffers) : list loc :=
  [x_min b; x_now b; x_grad b; x_hess b; grad b; grad_hess b].

(* H[j,i] *)
Definition entry (H : matrix) (j i : nat) : option Q :=
  match H !! j with
  | Some row => row !! i
  | None => None
  end.

(* the array num_grad writes into its output buffer when x holds xs: the
   estimator is run on a store of its own, x at 0, grad at 1, x_grad at 2 *)
Definition gradient_estimate (obj : ndarray -> Q) (h f0 : Q) (xs : ndarray)
    : ndarray :=
  let n := length xs in
  buf (snd (num_grad obj 0 h f0 1 2 (mkState [xs; zeros n; zeros n] []))) 1.

(* d = - np.sign(det(H)) * (Hi @ g), for Hi the inverse found for H *)
Definition newton_direction (det : matrix -> Q) (H Hi : matrix) (g : ndarray)
    : ndarray :=
  map (Qmult (- sign (det H))) (map (fun row => dot row g) Hi).

(* 0.5*(xm + xn) *)
Definition midpoint (xm xn : ndarray) : ndarray :=
  map (Qmult (1#2)) (zip_with Qplus xm xn).

(* the convergence criterion on the values a test of the loop sees *)
Definition criterion (cfg : config) (it : nat) (xm : ndarray) (f_min : Q)
    (xn : ndarray) (f_now : Q) : Prop :=
  (Qabs (f_now - f_min) < tol_fun cfg)%Q \/
  (xn <> [] /\
   forall i a c, xn !! i = Some a -> xm !! i = Some c ->
                 (Qabs (a - c) < tol_x cfg)%Q) \/
  (Z.of_nat (max_iter cfg) - 1 <= Z.of_nat it)%Z.

(** How an iteration goes on from its convergence test, which saw [xm] in
    x_min, [f_min], the candidate [xn] in x_now and its value [f_now], with
    [H] the Hessian estimate of the iteration: the value of the loop body,
    the array x_now holds afterwards, and the events after the test. *)
Inductive goes_on (obj : ndarray -> Q) (cfg : config) (it : nat)
    (xm : ndarray) (f_min : Q) (xn : ndarray) (f_now : Q) (H : matrix)
    : res (control * Q * matrix) -> ndarray -> list event -> Prop :=
| test_raises :
    xn = [] -> ~ (Qabs (f_now - f_min) < tol_fun cfg)%Q ->
    goes_on obj cfg it xm f_min xn f_now H (Raise ValueError) xn []
| test_passes :
    criterion cfg it xm f_min xn f_now ->
    goes_on obj cfg it xm f_min xn f_now H
      (Ok (Break, f_now, H)) xn [EvCommit xn f_now]
| no_probe :
    ~ criterion cfg it xm f_min xn f_now -> (f_now < f_min)%Q ->
    goes_on obj cfg it xm f_min xn f_now H
      (Ok (Continue, f_now, H)) xn [EvCommit xn f_now]
| probe_taken :
    ~ criterion cfg it xm f_min xn f_now -> (f_min <= f_now)%Q ->
    (obj (midpoint xm xn) < f_now)%Q ->
    goes_on obj cfg it xm f_min xn f_now H
      (Ok (Continue, obj (midpoint xm xn), H)) (midpoint xm xn)
      [EvCall (midpoint xm xn); EvCommit (midpoint xm xn) (obj (midpoint xm xn))]
| probe_dropped :
    ~ criterion cfg it xm f_min xn f_now -> (f_min <= f_now)%Q ->
    (f_now <= obj (midpoint xm xn))%Q ->
    goes_on obj cfg it xm f_min xn f_now H
      (Ok (Continue, f_now, H)) xn
      [EvCall (midpoint xm xn); EvCommit xn f_now].

(* the convergence tests in a trace and whether they passed *)
Definition check_fails (cfg : config) (e : event) : Prop :=
  match e with
  | EvCheck it xm f_min xn f_now => ~ criterion cfg it xm f_min xn f_now
  | _ => True
  end.

Definition is_iter (e : event) : bool :=
  match e with EvIter _ => true | _ => false end.

(* the number of outer iterations begun along a trace *)
Definition iterations (evs : list event) : nat :=
  length (List.filter is_iter evs).

(** [stops_at cfg evs x]: the events [evs] of a loop end with a convergence
    test that met the criterion with candidate [x], followed by the commit of
    that candidate, and no test before it met the criterion. *)
Definition stops_at (cfg : config) (evs : list event) (x : ndarray) : Prop :=
  exists pre k xm fm fn,
    evs = pre ++ [EvCheck k xm fm x fn; EvCommit x fn] /\
    (k < max_iter cfg)%nat /\
    criterion cfg k xm fm x fn /\
    Forall (check_fails cfg) pre.

(* the values committed to f_min along a trace *)
Definition committed (evs : list event) : list Q :=
  flat_map (fun e => match e with EvCommit _ f => [f] | _ => [] end) evs.

(* the points at which obj was called along a trace *)
Definition called (evs : list event) : list ndarray :=
  flat_map (fun e => match e with EvCall x => [x] | _ => [] end) evs.

(* a commit that pairs a point with the value of obj at that point *)
Definition commit_sound (obj : ndarray -> Q) (e : event) : Prop :=
  match e with
  | EvCommit x f => f = obj x
  | _ => True
  end.

(* the entry i of the gradient as the specification words it: the forward
   difference of obj at xs with coordinate i alone moved by its step *)
Definition forward_difference (obj : ndarray -> Q) (h f0 : Q) (xs : ndarray)
    (i : nat) (xi : Q) : Q :=
  (obj (<[i := xi + step_of h xi]> xs) - f0) / step_of h xi.

(* both are decidable, which settles them on concrete stores *)
#[local] Instance ready_dec (ls : list loc) (n : nat) (s : state) :
  Decision (ready ls n s).
Proof. unfold ready. apply _. Defined.

#[local] Instance square_dec (n : nat) (H : matrix) : Decision (square n H).
Proof. unfold square. apply _. Defined.

(** * Properties *)

Close Scope Q_scope.

(** ** Scalars *)

Lemma Qltb_lt (a b : Q) : Qltb a b = true <-> (a < b)%Q.
Proof.
  unfold Qltb. rewrite negb_true_iff, <- not_true_iff_false, Qle_bool_iff.
  split; [apply Qnot_le_lt | apply Qlt_not_le].
Qed.

Lemma Qltb_ge (a b : Q) : Qltb a b = false <-> (b <= a)%Q.
Proof.
  unfold Qltb. rewrite negb_false_iff. apply Qle_bool_iff.
Qed.

Lemma Qgeb_le (a b : Q) : Qgeb a b = true <-> (b <= a)%Q.
Proof. apply Qle_bool_iff. Qed.

Lemma Qgeb_lt (a b : Q) : Qgeb a b = false <-> (a < b)%Q.
Proof.
  unfold Qgeb. rewrite <- not_true_iff_false, Qle_bool_iff.
  split; [apply Qnot_le_lt | apply Qlt_not_le].
Qed.





Lemma fmax_ge_r (a b : Q) : (b <= fmax a b)%Q.
Proof.
  unfold fmax. destruct (Qle_bool a b) eqn:E.
  - apply Qle_refl.
  - apply Qlt_le_weak, Qnot_le_lt. intros H. apply Qle_bool_iff in H. congruence.
Qed.

(** ** Stores *)

Lemma map_fmap {A B} (f : A -> B) (l : list A) : map f l = f <$> l.
Proof. reflexivity. Qed.

Lemma buf_valid (s : state) (l : loc) :
  l < length (heap s) -> heap s !! l = Some (buf s l).
Proof.
  intros H. unfold buf. destruct (heap s !! l) eqn:E; [reflexivity|].
  apply lookup_ge_None_1 in E. lia.
Qed.

Lemma buf_upd_eq (l : loc) (v : ndarray) (s : state) :
  l < length (heap s) -> buf (upd l v s) l = v.
Proof.
  intros H. unfold buf, upd. simpl. rewrite list_lookup_insert_eq by done. reflexivity.
Qed.

Lemma buf_upd_ne (l l' : loc) (v : ndarray) (s : state) :
  l <> l' -> buf (upd l v s) l' = buf s l'.
Proof.
  intros H. unfold buf, upd. simpl. rewrite list_lookup_insert_ne by done. reflexivity.
Qed.

Lemma buf_log (evs : list event) (s : state) (l : loc) : buf (log evs s) l = buf s l.
Proof. reflexivity. Qed.

Lemma heap_upd_length (l : loc) (v : ndarray) (s : state) :
  length (heap (upd l v s)) = length (heap s).
Proof. unfold upd. simpl. apply length_insert. Qed.

Lemma broadcast2_same (op : Q -> Q -> Q) (a c : ndarray) :
  length a = length c -> broadcast2 op a c = Ok (zip_with op a c).
Proof. intros H. unfold broadcast2. rewrite H, Nat.eqb_refl. reflexivity. Qed.

Lemma broadcast_to_same (dst src : ndarray) :
  length src = length dst -> broadcast_to dst src = Ok src.
Proof. intros H. unfold broadcast_to. rewrite H, Nat.eqb_refl. reflexivity. Qed.

Lemma frame_refl (P : loc -> Prop) (s : state) : frame P s s.
Proof. repeat split. Qed.

Lemma frame_trans (P : loc -> Prop) (s1 s2 s3 : state) :
  frame P s1 s2 -> frame P s2 s3 -> frame P s1 s3.
Proof.
  intros (L1 & S1 & U1) (L2 & S2 & U2). repeat split.
  - congruence.
  - intros l. rewrite S2. apply S1.
  - intros l Hl. rewrite U2, U1; auto.
Qed.

Lemma frame_mono (P P' : loc -> Prop) (s s' : state) :
  (forall l, P l -> P' l) -> frame P s s' -> frame P' s s'.
Proof.
  intros HP (L & S & U). repeat split; auto.
Qed.

Lemma frame_upd (P : loc -> Prop) (l : loc) (v : ndarray) (s : state) :
  P l -> length v = length (buf s l) -> frame P s (upd l v s).
Proof.
  intros HP Hv. repeat split.
  - apply heap_upd_length.
  - intros l'. destruct (decide (l = l')) as [<-|Hne].
    + destruct (decide (l < length (heap s))) as [Hl|Hl].
      * rewrite buf_upd_eq; auto.
      * unfold buf, upd. simpl. rewrite list_insert_ge by lia. reflexivity.
    + rewrite buf_upd_ne; auto.
  - intros l' Hl'. apply buf_upd_ne. intros ->. auto.
Qed.

Lemma frame_trace (P : loc -> Prop) (s : state) (t : list event) :
  frame P s (mkState (heap s) t).
Proof. repeat split. Qed.

(** ** Running the monad *)

Ltac mred := cbv beta iota.

Lemma bind_ok {A B} (m : M A) (f : A -> M B) (s s' : state) (a : A) :
  m s = (Ok a, s') -> bind m f s = f a s'.
Proof. intros H. unfold bind. rewrite H. reflexivity. Qed.

Lemma bind_raise {A B} (m : M A) (f : A -> M B) (s s' : state) (e : exn) :
  m s = (Raise e, s') -> bind m f s = (Raise e, s').
Proof. intros H. unfold bind. rewrite H. reflexivity. Qed.

Lemma getitem_ok (a : loc) (i : nat) (v : Q) (s : state) :
  buf s a !! i = Some v -> getitem a i s = (Ok v, s).
Proof. intros H. unfold getitem. rewrite H. reflexivity. Qed.

Lemma setitem_ok (a : loc) (i : nat) (v : Q) (s : state) :
  i < length (buf s a) ->
  setitem a i v s = (Ok tt, upd a (<[i:=v]> (buf s a)) s).
Proof.
  intros H. unfold setitem. apply Nat.ltb_lt in H. rewrite H. reflexivity.
Qed.

Lemma setslice_ok (a : loc) (v : ndarray) (s : state) :
  length v = length (buf s a) -> setslice a v s = (Ok tt, upd a v s).
Proof. intros H. unfold setslice. rewrite broadcast_to_same by done. reflexivity. Qed.

(** ** The gradient estimator *)

Lemma perturbed_length (h : Q) (k : nat) (xs : ndarray) :
  length (perturbed h k xs) = length xs.
Proof. apply length_imap. Qed.

Lemma perturbed_0 (h : Q) (xs : ndarray) : perturbed h 0 xs = xs.
Proof.
  apply list_eq. intros j. unfold perturbed. rewrite list_lookup_imap.
  destruct (xs !! j); reflexivity.
Qed.

Lemma perturbed_lookup_here (h : Q) (k : nat) (xs : ndarray) :
  perturbed h k xs !! k = xs !! k.
Proof.
  unfold perturbed. rewrite list_lookup_imap, Nat.ltb_irrefl.
  destruct (xs !! k); reflexivity.
Qed.

Lemma perturbed_S (h : Q) (k : nat) (xs : ndarray) (xk : Q) :
  xs !! k = Some xk ->
  <[k := (xk + step_of h xk)%Q]> (perturbed h k xs) = perturbed h (S k) xs.
Proof.
  intros Hk. apply list_eq. intros j. unfold perturbed.
  destruct (decide (k = j)) as [<-|Hne].
  - rewrite list_lookup_insert_eq by (rewrite length_imap; eapply lookup_lt_Some; eauto).
    rewrite list_lookup_imap, Hk. simpl.
    replace (k <? S k) with true by (symmetry; apply Nat.ltb_lt; lia). reflexivity.
  - rewrite list_lookup_insert_ne by done. rewrite !list_lookup_imap.
    destruct (xs !! j); [simpl|reflexivity].
    replace (j <? S k) with (j <? k); [reflexivity|].
    destruct (j <? k) eqn:E; symmetry.
    + apply Nat.ltb_lt. apply Nat.ltb_lt in E. lia.
    + apply Nat.ltb_ge. apply Nat.ltb_ge in E. lia.
Qed.

Section GradientEstimator.

Variable obj : ndarray -> Q.

Lemma num_grad_body_ok (x grad x_grad : loc) (h f0 xi : Q) (i : nat) (s : state) :
  x < length (heap s) -> x <> grad ->
  buf s x !! i = Some xi -> i < length (buf s grad) ->
  let xs' := <[i := (xi + step_of h xi)%Q]> (buf s x) in
  num_grad_body obj x h f0 grad x_grad i s =
    (Ok tt, upd grad (<[i := ((obj xs' - f0) / step_of h xi)%Q]> (buf s grad))
              (log [EvCall xs'] (upd x xs' s))).
Proof.
  intros Hx Hne Hxi Hi xs'. unfold num_grad_body, view.
  rewrite (bind_ok _ _ _ _ _ (getitem_ok _ _ _ _ Hxi)).
  rewrite (bind_ok _ _ _ _ _ (setitem_ok _ _ _ _ (lookup_lt_Some _ _ _ Hxi))).
  fold xs'. unfold call_obj, eval_obj, deref, emit, ret, bind at 1 2 3.
  rewrite buf_upd_eq by done. unfold bind.
  rewrite setitem_ok; rewrite buf_log, buf_upd_ne by done; [reflexivity|exact Hi].
Qed.

Lemma num_grad_loop (x grad x_grad : loc) (h f0 : Q) (xs0 : ndarray) :
  forall (c k : nat) (s : state),
  x < length (heap s) -> grad < length (heap s) -> x <> grad ->
  k + c = length xs0 ->
  buf s x = perturbed h k xs0 ->
  length (buf s grad) = length xs0 ->
  exists s',
    for_range k c (num_grad_body obj x h f0 grad x_grad) s = (Ok tt, s') /\
    frame (fun l => l = x \/ l = grad) s s' /\
    buf s' x = perturbed h (k + c) xs0 /\
    (forall j, j < k -> buf s' grad !! j = buf s grad !! j) /\
    (forall j xj, k <= j -> xs0 !! j = Some xj ->
       buf s' grad !! j
       = Some ((obj (perturbed h (S j) xs0) - f0) / step_of h xj)%Q) /\
    trace s' = trace s ++ map (fun j => EvCall (perturbed h (S j) xs0)) (seq k c).
Proof.
  induction c as [|c IH]; intros k s Hx Hg Hne Hk Hbx Hbg.
  - exists s. simpl. repeat split.
    + rewrite Nat.add_0_r. exact Hbx.
    + intros j xj Hj Hxj. apply lookup_lt_Some in Hxj. lia.
    + rewrite app_nil_r. reflexivity.
  - destruct (lookup_lt_is_Some_2 xs0 k) as [xk Hxk]; [lia|].
    assert (Hxi : buf s x !! k = Some xk)
      by (rewrite Hbx, perturbed_lookup_here; exact Hxk).
    assert (Hi : k < length (buf s grad)) by lia.
    pose proof (num_grad_body_ok x grad x_grad h f0 xk k s Hx Hne Hxi Hi) as Hbody.
    cbv zeta in Hbody. rewrite Hbx, (perturbed_S h k xs0 xk Hxk) in Hbody.
    set (v := ((obj (perturbed h (S k) xs0) - f0) / step_of h xk)%Q) in *.
    set (s1 := upd grad (<[k:=v]> (buf s grad))
                 (log [EvCall (perturbed h (S k) xs0)]
                    (upd x (perturbed h (S k) xs0) s))) in *.
    assert (Hx1 : x < length (heap s1))
      by (unfold s1; rewrite heap_upd_length; simpl; rewrite length_insert; exact Hx).
    assert (Hg1 : grad < length (heap s1))
      by (unfold s1; rewrite heap_upd_length; simpl; rewrite length_insert; exact Hg).
    assert (Hbx1 : buf s1 x = perturbed h (S k) xs0).
    { unfold s1. rewrite buf_upd_ne by congruence. rewrite buf_log.
      apply buf_upd_eq. exact Hx. }
    assert (Hbg1 : buf s1 grad = <[k:=v]> (buf s grad)).
    { unfold s1. apply buf_upd_eq. simpl. rewrite length_insert. exact Hg. }
    destruct (IH (S k) s1 Hx1 Hg1 Hne) as (s' & Hrun & Hfr & Hx' & Hlo & Hhi & Htr).
    + lia.
    + exact Hbx1.
    + rewrite Hbg1, length_insert. exact Hbg.
    + exists s'. split; [|split; [|split; [|split; [|split]]]].
      * simpl. rewrite (bind_ok _ _ _ _ _ Hbody). exact Hrun.
      * apply frame_trans with (s2 := s1); [|exact Hfr]. unfold s1.
        apply frame_trans with (s2 := upd x (perturbed h (S k) xs0) s).
        { apply frame_upd; [auto|]. rewrite Hbx, !perturbed_length. reflexivity. }
        apply frame_trans
          with (s2 := log [EvCall (perturbed h (S k) xs0)]
                        (upd x (perturbed h (S k) xs0) s)).
        { apply frame_trace. }
        apply frame_upd; [auto|]. rewrite length_insert.
        rewrite buf_log, buf_upd_ne by done. reflexivity.
      * rewrite Hx'. f_equal. lia.
      * intros j Hj. rewrite Hlo by lia. rewrite Hbg1.
        apply list_lookup_insert_ne. lia.
      * intros j xj Hj Hxj. destruct (decide (j = k)) as [->|Hjk].
        -- rewrite Hlo by lia. rewrite Hbg1.
           rewrite list_lookup_insert_eq by lia.
           rewrite Hxk in Hxj. injection Hxj as <-. reflexivity.
        -- apply Hhi; [lia|exact Hxj].
      * rewrite Htr. unfold s1. simpl. rewrite <- app_assoc. reflexivity.
Qed.

Lemma num_grad_ok (x grad x_grad : loc) (h f0 : Q) (s : state) :
  x < length (heap s) -> grad < length (heap s) -> x <> grad ->
  length (buf s grad) = length (buf s x) ->
  exists s',
    num_grad obj x h f0 grad x_grad s = (Ok tt, s') /\
    frame (fun l => l = x \/ l = grad) s s' /\
    buf s' x = perturbed h (length (buf s x)) (buf s x) /\
    buf s' grad = num_grad_values obj h f0 (buf s x) /\
    trace s' = trace s ++ map EvCall (num_grad_calls h (buf s x)).
Proof.
  intros Hx Hg Hne Hlen.
  destruct (num_grad_loop x grad x_grad h f0 (buf s x) (length (buf s x)) 0 s)
    as (s' & Hrun & Hfr & Hx' & _ & Hhi & Htr); auto.
  { symmetry. apply perturbed_0. }
  exists s'. split; [|split; [|split; [|split]]].
  - unfold num_grad, size, bind. exact Hrun.
  - exact Hfr.
  - exact Hx'.
  - apply list_eq. intros j. unfold num_grad_values. rewrite list_lookup_imap.
    destruct (buf s x !! j) as [xj|] eqn:Hj.
    + simpl. apply Hhi; [lia|exact Hj].
    + simpl. apply lookup_ge_None. apply lookup_ge_None in Hj.
      destruct Hfr as (_ & Hsz & _). rewrite Hsz. lia.
  - rewrite Htr. unfold num_grad_calls. rewrite map_map. reflexivity.
Qed.

End GradientEstimator.

Lemma gradient_estimate_values (obj : ndarray -> Q) (h f0 : Q) (xs : ndarray) :
  gradient_estimate obj h f0 xs = num_grad_values obj h f0 xs.
Proof.
  unfold gradient_estimate.
  set (s := mkState [xs; zeros (length xs); zeros (length xs)] []).
  destruct (num_grad_ok obj 0 1 2 h f0 s) as (s' & Hrun & _ & _ & Hg & _).
  - simpl. lia.
  - simpl. lia.
  - lia.
  - unfold buf, s, zeros. simpl. apply length_replicate.
  - rewrite Hrun. simpl. exact Hg.
Qed.

(** ** Matrices *)

Lemma forallb_lookup {A} (f : A -> bool) (l : list A) :
  (forall i x, l !! i = Some x -> f x = true) -> forallb f l = true.
Proof.
  induction l as [|a l IH]; intros H; simpl; [reflexivity|].
  rewrite (H 0 a eq_refl). apply IH. intros i x Hi. apply (H (S i) x Hi).
Qed.

Lemma square_zeros2 (n : nat) : square n (zeros2 n n).
Proof.
  split.
  - apply length_replicate.
  - apply Forall_replicate. apply length_replicate.
Qed.

Lemma set_col_ok (n : nat) (H : matrix) (i : nat) (col : list Q) :
  square n H -> i < n -> length col = n ->
  exists H',
    set_col H i col = Ok H' /\ square n H' /\
    (forall j, j < n -> entry H' j i = col !! j) /\
    (forall j k, k <> i -> entry H' j k = entry H j k).
Proof.
  intros [Hn Hrows] Hi Hcol.
  exists (zip_with (fun row c => <[i:=c]> row) H col).
  unfold set_col. rewrite forallb_lookup.
  2:{ intros k row Hk. apply Nat.ltb_lt.
      rewrite (Forall_lookup_1 _ _ _ _ Hrows Hk). exact Hi. }
  rewrite Hcol, Hn, Nat.eqb_refl. split; [reflexivity|]. split; [|split].
  - split.
    + rewrite length_zip_with. lia.
    + apply Forall_lookup_2. intros k row Hk.
      apply lookup_zip_with_Some in Hk as (r & c & -> & Hr & _).
      rewrite length_insert. apply (Forall_lookup_1 _ _ _ _ Hrows Hr).
  - intros j Hj. unfold entry. rewrite lookup_zip_with.
    destruct (lookup_lt_is_Some_2 H j) as [row Hrow]; [lia|].
    destruct (lookup_lt_is_Some_2 col j) as [c Hc]; [lia|].
    rewrite Hrow, Hc. simpl. apply list_lookup_insert_eq.
    rewrite (Forall_lookup_1 _ _ _ _ Hrows Hrow). exact Hi.
  - intros j k Hk. unfold entry. rewrite lookup_zip_with.
    destruct (H !! j) as [row|] eqn:Hrow; [|reflexivity].
    destruct (lookup_lt_is_Some_2 col j) as [c Hc].
    { apply lookup_lt_Some in Hrow. lia. }
    rewrite Hc. simpl. apply list_lookup_insert_ne. congruence.
Qed.

(** ** The Hessian estimator *)

Section HessianEstimator.

Variable obj : ndarray -> Q.

Lemma num_hess_body_ok (x grad x_grad x_hess grad_hess : loc) (h xi : Q)
    (n i : nat) (hess : matrix) (s : state) :
  x_hess < length (heap s) -> grad_hess < length (heap s) ->
  x <> x_hess -> x <> grad_hess -> grad <> x_hess -> grad <> grad_hess ->
  x_hess <> grad_hess ->
  length (buf s x) = n -> length (buf s grad) = n ->
  length (buf s x_hess) = n -> length (buf s grad_hess) = n ->
  square n hess -> buf s x !! i = Some xi ->
  let st := step_of h xi in
  let xp := <[i := (xi + st)%Q]> (buf s x) in
  exists H' s',
    num_hess_body obj x h grad x_grad x_hess grad_hess i hess s = (Ok H', s') /\
    frame (fun l => l = x_hess \/ l = grad_hess) s s' /\
    square n H' /\
    (forall j gp gj,
       gradient_estimate obj h (obj xp) xp !! j = Some gp ->
       buf s grad !! j = Some gj ->
       entry H' j i = Some ((gp - gj) / st)%Q) /\
    (forall j k, k <> i -> entry H' j k = entry hess j k) /\
    exists calls, trace s' = trace s ++ map EvCall calls.
Proof.
  intros Hxh Hgh N1 N2 N3 N4 N5 Lx Lg Lxh Lgh Hsq Hxi st xp.
  assert (Hi : i < n) by (rewrite <- Lx; eapply lookup_lt_Some; eauto).
  assert (Lxp : length xp = n) by (unfold xp; rewrite length_insert; exact Lx).
  set (s1 := upd x_hess (buf s x) s).
  set (s2 := upd x_hess xp s1).
  set (s3 := log [EvCall xp] s2).
  assert (F1 : frame (fun l => l = x_hess \/ l = grad_hess) s s1).
  { apply frame_upd; [auto|]. congruence. }
  assert (B1 : buf s1 x_hess = buf s x) by (apply buf_upd_eq; exact Hxh).
  assert (F2 : frame (fun l => l = x_hess \/ l = grad_hess) s1 s2).
  { apply frame_upd; [auto|]. rewrite B1. congruence. }
  assert (Hxh1 : x_hess < length (heap s1))
    by (unfold s1; rewrite heap_upd_length; exact Hxh).
  assert (B2 : buf s2 x_hess = xp) by (apply buf_upd_eq; exact Hxh1).
  assert (F3 : frame (fun l => l = x_hess \/ l = grad_hess) s s3).
  { apply frame_trans with (s2 := s1); [exact F1|].
    apply frame_trans with (s2 := s2); [exact F2|]. apply frame_trace. }
  destruct F3 as (HL3 & HS3 & HU3).
  destruct (num_grad_ok obj x_hess grad_hess x_grad h (obj xp) s3)
    as (s4 & Hrun & F4 & _ & Bg4 & Htr4).
  { rewrite HL3. exact Hxh. }
  { rewrite HL3. exact Hgh. }
  { exact N5. }
  { rewrite !HS3. congruence. }
  assert (B3 : buf s3 x_hess = xp) by exact B2.
  rewrite B3 in Bg4, Htr4.
  assert (Bgrad : buf s4 grad = buf s grad).
  { destruct F4 as (_ & _ & HU4). rewrite HU4 by (intros [?|?]; congruence).
    apply HU3. intros [?|?]; congruence. }
  set (gh := num_grad_values obj h (obj xp) xp) in *.
  assert (Lgh4 : length gh = n) by (unfold gh, num_grad_values; rewrite length_imap; exact Lxp).
  set (col := map (fun a => (a / st)%Q) (zip_with Qminus gh (buf s grad))).
  assert (Lcol : length col = n).
  { unfold col. rewrite length_map, length_zip_with. lia. }
  destruct (set_col_ok n hess i col Hsq Hi Lcol) as (H' & Hset & Hsq' & Hcol & Hoth).
  exists H', s4. split; [|split; [|split; [|split; [|split]]]].
  - unfold num_hess_body, view, call_obj, eval_obj, deref, emit, lift, ret, bind.
    rewrite (getitem_ok _ _ _ _ Hxi). cbv beta iota.
    rewrite setslice_ok by congruence. cbv beta iota. fold s1.
    rewrite setitem_ok by (rewrite B1; lia). cbv beta iota.
    rewrite B1. fold st xp s2. rewrite B2. fold s3.
    unfold call_obj, eval_obj, deref, emit, lift, ret, bind in Hrun.
    rewrite Hrun. cbv beta iota.
    rewrite Bg4, Bgrad. rewrite broadcast2_same by lia.
    fold col. rewrite Hset. reflexivity.
  - apply frame_trans with (s2 := s3); [repeat split; auto|].
    eapply frame_mono; [|exact F4]. simpl. tauto.
  - exact Hsq'.
  - intros j gp gj Hgp Hgj. rewrite gradient_estimate_values in Hgp.
    fold gh in Hgp. rewrite Hcol by (apply lookup_lt_Some in Hgj; lia).
    unfold col. rewrite map_fmap, list_lookup_fmap, lookup_zip_with, Hgp, Hgj.
    reflexivity.
  - exact Hoth.
  - exists (xp :: num_grad_calls h xp). rewrite Htr4. unfold s3. simpl.
    rewrite <- app_assoc. reflexivity.
Qed.

Lemma num_hess_loop (x grad x_grad x_hess grad_hess : loc) (h : Q) (n : nat) :
  forall (c k : nat) (hess : matrix) (s : state),
  x_hess < length (heap s) -> grad_hess < length (heap s) ->
  x <> x_hess -> x <> grad_hess -> grad <> x_hess -> grad <> grad_hess ->
  x_hess <> grad_hess ->
  length (buf s x) = n -> length (buf s grad) = n ->
  length (buf s x_hess) = n -> length (buf s grad_hess) = n ->
  square n hess -> k + c = n ->
  exists H' s',
    fold_range k c (num_hess_body obj x h grad x_grad x_hess grad_hess) hess s
      = (Ok H', s') /\
    frame (fun l => l = x_hess \/ l = grad_hess) s s' /\
    square n H' /\
    (forall i j, i < k -> entry H' j i = entry hess j i) /\
    (forall i xi j gp gj,
       k <= i -> buf s x !! i = Some xi ->
       let xp := <[i := (xi + step_of h xi)%Q]> (buf s x) in
       gradient_estimate obj h (obj xp) xp !! j = Some gp ->
       buf s grad !! j = Some gj ->
       entry H' j i = Some ((gp - gj) / step_of h xi)%Q) /\
    exists calls, trace s' = trace s ++ map EvCall calls.
Proof.
  induction c as [|c IH];
    intros k hess s Hxh Hgh N1 N2 N3 N4 N5 Lx Lg Lxh Lgh Hsq Hk.
  - exists hess, s. simpl. split; [reflexivity|]. split; [apply frame_refl|].
    split; [exact Hsq|]. split; [reflexivity|]. split.
    + intros i xi j gp gj Hi Hxi. apply lookup_lt_Some in Hxi. lia.
    + exists []. simpl. rewrite app_nil_r. reflexivity.
  - destruct (lookup_lt_is_Some_2 (buf s x) k) as [xk Hxk]; [lia|].
    destruct (num_hess_body_ok x grad x_grad x_hess grad_hess h xk n k hess s)
      as (H1 & s1 & Hrun1 & F1 & Hsq1 & Hcol1 & Hoth1 & calls1 & Htr1); auto.
    pose proof F1 as (HL1 & HS1 & HU1).
    assert (Bx : buf s1 x = buf s x) by (apply HU1; intros [?|?]; congruence).
    assert (Bg : buf s1 grad = buf s grad) by (apply HU1; intros [?|?]; congruence).
    destruct (IH (S k) H1 s1)
      as (H' & s' & Hrun & F & Hsq' & Hlo & Hhi & calls & Htr);
      try rewrite HL1; try rewrite !HS1; auto; try lia.
    exists H', s'. split; [|split; [|split; [|split; [|split]]]].
    + simpl. rewrite (bind_ok _ _ _ _ _ Hrun1). exact Hrun.
    + apply frame_trans with (s2 := s1); assumption.
    + exact Hsq'.
    + intros i j Hi. rewrite Hlo by lia. apply Hoth1. lia.
    + intros i xi j gp gj Hi Hxi xp Hgp Hgj.
      destruct (decide (i = k)) as [->|Hik].
      * rewrite Hlo by lia. rewrite Hxk in Hxi. injection Hxi as <-.
        apply Hcol1; assumption.
      * apply Hhi; [lia|rewrite Bx; exact Hxi|rewrite Bx; exact Hgp|].
        rewrite Bg. exact Hgj.
    + exists (calls1 ++ calls). rewrite Htr, Htr1, map_app, app_assoc. reflexivity.
Qed.

Lemma ready_inv4 (a c d e : loc) (n : nat) (s : state) :
  ready [a; c; d; e] n s ->
  (a <> c /\ a <> d /\ a <> e /\ c <> d /\ c <> e /\ d <> e) /\
  (a < length (heap s) /\ c < length (heap s) /\
   d < length (heap s) /\ e < length (heap s)) /\
  (length (buf s a) = n /\ length (buf s c) = n /\
   length (buf s d) = n /\ length (buf s e) = n).
Proof.
  intros [Hnd Hall].
  apply NoDup_cons in Hnd as [Ha Hnd]. apply NoDup_cons in Hnd as [Hc Hnd].
  apply NoDup_cons in Hnd as [Hd _].
  repeat match goal with
         | H : _ ∉ _ :: _ |- _ => apply not_elem_of_cons in H as [? H]
         end.
  apply Forall_cons in Hall as [[? ?] Hall]. apply Forall_cons in Hall as [[? ?] Hall].
  apply Forall_cons in Hall as [[? ?] Hall]. apply Forall_cons in Hall as [[? ?] _].
  repeat split; assumption.
Qed.

Lemma ready_frame (P : loc -> Prop) (ls : list loc) (n : nat) (s s' : state) :
  frame P s s' -> ready ls n s -> ready ls n s'.
Proof.
  intros (HL & HS & _) [Hnd Hall]. split; [exact Hnd|].
  eapply Forall_impl; [exact Hall|]. intros l [H1 H2].
  rewrite HL, HS. auto.
Qed.

Lemma num_hess_ok (x grad x_grad x_hess grad_hess : loc) (h : Q) (n : nat)
    (hess : matrix) (s : state) :
  ready [x; grad; x_hess; grad_hess] n s -> square n hess ->
  exists H' s',
    num_hess obj x h grad hess x_grad x_hess grad_hess s = (Ok H', s') /\
    frame (fun l => l = x_hess \/ l = grad_hess) s s' /\
    square n H' /\
    (forall i xi j gp gj,
       buf s x !! i = Some xi ->
       let xp := <[i := (xi + step_of h xi)%Q]> (buf s x) in
       gradient_estimate obj h (obj xp) xp !! j = Some gp ->
       buf s grad !! j = Some gj ->
       entry H' j i = Some ((gp - gj) / step_of h xi)%Q) /\
    exists calls, trace s' = trace s ++ map EvCall calls.
Proof.
  intros Hr Hsq. apply ready_inv4 in Hr as (D & V & L).
  destruct (num_hess_loop x grad x_grad x_hess grad_hess h n n 0 hess s)
    as (H' & s' & Hrun & F & Hsq' & _ & Hhi & Htr); try tauto.
  exists H', s'. split; [|split; [|split; [|split]]].
  - unfold num_hess, size, bind. replace (length (buf s x)) with n by (symmetry; tauto).
    exact Hrun.
  - exact F.
  - exact Hsq'.
  - intros i xi j gp gj Hxi xp Hgp Hgj. apply Hhi; auto. lia.
  - exact Htr.
Qed.

End HessianEstimator.

(** ** The parts of an iteration *)

Lemma fmax_cases (a c : Q) : (fmax a c = a /\ (c <= a)%Q) \/ (fmax a c = c /\ (a <= c)%Q).
Proof.
  unfold fmax. destruct (Qle_bool a c) eqn:E.
  - right. split; [reflexivity|]. apply Qle_bool_iff. exact E.
  - left. split; [reflexivity|]. apply Qlt_le_weak, Qnot_le_lt.
    intros H. apply Qle_bool_iff in H. congruence.
Qed.

Lemma fold_fmax_lt (l : list Q) (a t : Q) :
  (fold_left fmax l a < t)%Q <-> (a < t)%Q /\ Forall (fun x => (x < t)%Q) l.
Proof.
  revert a. induction l as [|x l IH]; intros a; simpl.
  - split; [intros H; split; [exact H|constructor]|tauto].
  - rewrite IH. rewrite Forall_cons.
    destruct (fmax_cases a x) as [[-> Hle]|[-> Hle]].
    + split; [intros [H1 H2]|tauto]. repeat split; auto.
      eapply Qle_lt_trans; eauto.
    + split; [intros [H1 H2]|tauto]. repeat split; auto.
      eapply Qle_lt_trans; eauto.
Qed.

Lemma amax_lt (l : list Q) (m t : Q) :
  amax l = Ok m -> ((m < t)%Q <-> Forall (fun x => (x < t)%Q) l).
Proof.
  destruct l as [|a l]; simpl; [discriminate|]. intros [= <-].
  rewrite fold_fmax_lt, Forall_cons. reflexivity.
Qed.

Lemma amax_ok (l : list Q) : l <> [] -> exists m, amax l = Ok m.
Proof. destruct l; [congruence|]. intros _. eexists. reflexivity. Qed.

Ltac ready_facts H :=
  let Hnd := fresh "Hnd" in
  let Hall := fresh "Hall" in
  pose proof H as [Hnd Hall]; unfold refs in Hnd, Hall;
  repeat (apply NoDup_cons in Hnd as [? Hnd]);
  repeat match goal with
         | H' : _ ∉ _ :: _ |- _ => apply not_elem_of_cons in H' as [? H']
         end;
  repeat (apply Forall_cons in Hall as [[? ?] Hall]).

Lemma ready_intro4 (a c d e : loc) (n : nat) (s : state) :
  a <> c -> a <> d -> a <> e -> c <> d -> c <> e -> d <> e ->
  a < length (heap s) -> c < length (heap s) ->
  d < length (heap s) -> e < length (heap s) ->
  length (buf s a) = n -> length (buf s c) = n ->
  length (buf s d) = n -> length (buf s e) = n ->
  ready [a; c; d; e] n s.
Proof.
  intros. split.
  - repeat (apply NoDup_cons; split;
            [rewrite ?not_elem_of_cons; repeat split; try assumption;
             apply not_elem_of_nil|]).
    apply NoDup_nil. exact I.
  - repeat (apply Forall_cons; split; [split; assumption|]). apply Forall_nil. exact I.
Qed.

Section Parts.

Variable obj : ndarray -> Q.
Variable det : matrix -> Q.
Variable inv : matrix -> option matrix.
Variable cfg : config.
Variable b : buffers.

Hypothesis inv_square :
  forall n H Hi, square n H -> inv H = Some Hi -> square n Hi.

Lemma derivatives_ok (n : nat) (f_min : Q) (hess : matrix) (s : state) :
  ready (refs b) n s -> square n hess ->
  exists H s1 calls,
    derivatives obj cfg b f_min hess s = (Ok H, s1) /\
    frame (fun l => l ∈ refs b) s s1 /\
    square n H /\
    buf s1 (x_min b) = perturbed (grad_step cfg) n (buf s (x_min b)) /\
    buf s1 (x_now b) = buf s (x_now b) /\
    trace s1 = trace s ++ map EvCall calls.
Proof.
  intros Hr Hsq. ready_facts Hr.
  destruct (num_grad_ok obj (x_min b) (grad b) (x_grad b) (grad_step cfg) f_min s)
    as (sa & Hrun1 & Fa & Bxa & _ & Htra); try assumption; try congruence.
  pose proof Fa as (HLa & HSa & HUa).
  destruct (num_hess_ok obj (x_min b) (grad b) (x_grad b) (x_hess b) (grad_hess b)
              (grad_step cfg) n hess sa) as (Hm & s1 & Hrun2 & F1 & HsqH & _ & calls & Htr1).
  { apply ready_intro4; rewrite ?HLa, ?HSa; first [assumption|congruence]. }
  { exact Hsq. }
  pose proof F1 as (HL1 & HS1 & HU1).
  exists Hm, s1, (num_grad_calls (grad_step cfg) (buf s (x_min b)) ++ calls).
  split; [|split; [|split; [|split; [|split]]]].
  - unfold derivatives. rewrite (bind_ok _ _ _ _ _ Hrun1). exact Hrun2.
  - apply frame_trans with (s2 := sa).
    + eapply frame_mono; [|exact Fa]. unfold refs. intros l [->| ->]; apply list_elem_of_In; simpl; auto 10.
    + eapply frame_mono; [|exact F1]. unfold refs. intros l [->| ->]; apply list_elem_of_In; simpl; auto 10.
  - exact HsqH.
  - rewrite HU1 by (intros [?|?]; congruence). rewrite Bxa. f_equal. assumption.
  - rewrite HU1 by (intros [?|?]; congruence). apply HUa. intros [?|?]; congruence.
  - rewrite Htr1, Htra, map_app, app_assoc. reflexivity.
Qed.

Lemma length_zip_same {A B C} (f : A -> B -> C) (l : list A) (k : list B) :
  length l = length k -> length (zip_with f l k) = length k.
Proof. intros H. rewrite length_zip_with. lia. Qed.

Lemma matvec_ok (n : nat) (A : matrix) (v : list Q) :
  square n A -> length v = n -> matvec A v = Ok (map (fun row => dot row v) A).
Proof.
  intros [_ Hrows] Hv. unfold matvec. rewrite forallb_lookup; [reflexivity|].
  intros i row Hi. apply Nat.eqb_eq.
  rewrite (Forall_lookup_1 _ _ _ _ Hrows Hi). congruence.
Qed.

Lemma direction_ok (n : nat) (H : matrix) (s : state) :
  square n H -> length (buf s (grad b)) = n ->
  direction det inv b H s =
    (match inv H with
     | Some Hi => Ok (newton_direction det H Hi (buf s (grad b)))
     | None => Raise LinAlgError
     end, s) /\
  forall Hi, inv H = Some Hi ->
             length (newton_direction det H Hi (buf s (grad b))) = n.
Proof.
  intros Hsq Hg. unfold direction, linalg_inv, deref, lift, ret, raise, bind.
  destruct (inv H) as [Hi|] eqn:E.
  - pose proof (inv_square n H Hi Hsq E) as Hsqi.
    rewrite (matvec_ok n Hi _ Hsqi Hg). split; [reflexivity|].
    intros Hi' [= <-]. unfold newton_direction. rewrite !length_map. apply Hsqi.
  - split; [reflexivity|]. discriminate.
Qed.

Lemma update_ok (n : nat) (d : list Q) (s : state) :
  ready (refs b) n s -> length d = n ->
  let xn := zip_with Qplus (buf s (x_min b)) d in
  update obj b d s = (Ok (obj xn), log [EvCall xn] (upd (x_now b) xn s)).
Proof.
  intros Hr Hd xn. ready_facts Hr.
  assert (Lxn : length xn = length (buf s (x_now b))).
  { unfold xn. rewrite length_zip_same; congruence. }
  unfold update, view, call_obj, eval_obj, deref, emit, lift, ret, bind.
  rewrite broadcast2_same by congruence. mred. fold xn.
  rewrite (setslice_ok _ _ _ Lxn). mred.
  rewrite buf_upd_eq by assumption. reflexivity.
Qed.

Lemma commit_ok (n : nat) (f : Q) (s : state) :
  ready (refs b) n s ->
  commit b f s
  = (Ok f, log [EvCommit (buf s (x_now b)) f] (upd (x_min b) (buf s (x_now b)) s)).
Proof.
  intros Hr. ready_facts Hr.
  unfold commit, view, deref, emit, ret, bind.
  rewrite setslice_ok by congruence. reflexivity.
Qed.

Lemma line_search_ok (n : nat) (f_now f_min : Q) (s : state) :
  ready (refs b) n s ->
  let m := midpoint (buf s (x_min b)) (buf s (x_now b)) in
  line_search obj b f_now f_min s =
    if Qgeb f_now f_min then
      if Qltb (obj m) f_now
      then (Ok (obj m), upd (x_now b) m (log [EvCall m] s))
      else (Ok f_now, log [EvCall m] s)
    else (Ok f_now, s).
Proof.
  intros Hr m. ready_facts Hr. unfold line_search.
  destruct (Qgeb f_now f_min); [|reflexivity].
  unfold view, eval_obj, deref, emit, lift, ret, bind.
  rewrite broadcast2_same by congruence. mred. fold (midpoint (buf s (x_min b)) (buf s (x_now b))).
  fold m. destruct (Qltb (obj m) f_now); [|reflexivity].
  rewrite setslice_ok; [reflexivity|].
  rewrite buf_log. unfold m, midpoint. rewrite length_map. apply length_zip_same.
  congruence.
Qed.

Lemma all_close_Forall (xn xm : list Q) (t : Q) :
  Forall (fun x => (x < t)%Q) (map Qabs (zip_with Qminus xn xm)) <->
  (forall i a c, xn !! i = Some a -> xm !! i = Some c -> (Qabs (a - c) < t)%Q).
Proof.
  rewrite map_fmap, Forall_lookup. split.
  - intros H i a c Ha Hc. apply (H i).
    rewrite list_lookup_fmap, lookup_zip_with, Ha, Hc. reflexivity.
  - intros H i x Hx. rewrite list_lookup_fmap, lookup_zip_with in Hx.
    destruct (xn !! i) as [a|] eqn:Ha; [|discriminate].
    destruct (xm !! i) as [c|] eqn:Hc; [|discriminate].
    simpl in Hx. injection Hx as <-. eapply H; eauto.
Qed.

Lemma converged_ok (n it : nat) (f_now f_min : Q) (s : state) :
  ready (refs b) n s ->
  let xm := buf s (x_min b) in
  let xn := buf s (x_now b) in
  exists r,
    converged cfg b it f_now f_min s = (r, log [EvCheck it xm f_min xn f_now] s) /\
    ((r = Ok true /\ criterion cfg it xm f_min xn f_now) \/
     (r = Ok false /\ ~ criterion cfg it xm f_min xn f_now) \/
     (r = Raise ValueError /\ n = 0 /\
      ~ (Qabs (f_now - f_min) < tol_fun cfg)%Q)).
Proof.
  intros Hr xm xn. ready_facts Hr.
  assert (Lmn : length xn = length xm) by (unfold xn, xm; congruence).
  assert (Ln : length xn = n) by (unfold xn; assumption).
  unfold converged, deref, emit, lift, ret, bind. fold xm xn. clearbody xm xn.
  destruct (Qltb (Qabs (f_now - f_min)) (tol_fun cfg)) eqn:E1.
  { eexists. split; [reflexivity|]. left. split; [reflexivity|].
    left. apply Qltb_lt. exact E1. }
  apply Qltb_ge in E1. rewrite broadcast2_same by exact Lmn.
  destruct (decide (xn = [])) as [->|Hne].
  { simpl. eexists. split; [reflexivity|]. right. right.
    split; [reflexivity|]. split.
    - symmetry. exact Ln.
    - apply Qle_not_lt. exact E1. }
  destruct (amax_ok (map Qabs (zip_with Qminus xn xm))) as [m Hm].
  { destruct xn; [congruence|]. destruct xm; discriminate. }
  rewrite Hm. pose proof (amax_lt _ _ (tol_x cfg) Hm) as Hlt.
  rewrite all_close_Forall in Hlt.
  destruct (Qltb m (tol_x cfg)) eqn:E2.
  { eexists. split; [reflexivity|]. left. split; [reflexivity|].
    right. left. split; [exact Hne|]. apply Hlt. apply Qltb_lt. exact E2. }
  apply Qltb_ge in E2.
  destruct (Z.of_nat (max_iter cfg) - 1 <=? Z.of_nat it)%Z eqn:E3.
  { eexists. split; [reflexivity|]. left. split; [reflexivity|].
    right. right. apply Z.leb_le. exact E3. }
  eexists. split; [reflexivity|]. right. left.
  split; [reflexivity|]. intros [C|[[_ C]|C]].
  - apply (Qle_not_lt _ _ E1). exact C.
  - apply (Qle_not_lt _ _ E2). apply Hlt. exact C.
  - apply Z.leb_gt in E3. lia.
Qed.

Lemma ready_log (ls : list loc) (n : nat) (evs : list event) (s : state) :
  ready ls n s -> ready ls n (log evs s).
Proof. intros H. exact H. Qed.

Lemma ready_upd (ls : list loc) (n : nat) (l : loc) (v : list Q) (s : state) :
  ready ls n s -> length v = length (buf s l) -> ready ls n (upd l v s).
Proof.
  intros H Hv. eapply ready_frame; [|exact H].
  apply (frame_upd (fun _ => True)); auto.
Qed.

Lemma frame_refs_upd (l : loc) (v : list Q) (s : state) :
  l ∈ refs b -> length v = length (buf s l) ->
  frame (fun l => l ∈ refs b) s (upd l v s).
Proof. intros. apply frame_upd; assumption. Qed.

Lemma finish_ok (n it : nat) (f_now f_min : Q) (H : matrix) (s : state) :
  ready (refs b) n s ->
  let xm := buf s (x_min b) in
  let xn := buf s (x_now b) in
  exists r x' evs s',
    goes_on obj cfg it xm f_min xn f_now H r x' evs /\
    (do stop <- converged cfg b it f_now f_min;
     if stop then
       do f_min' <- commit b f_now;
       ret (Break, f_min', H)
     else
       do f_now' <- line_search obj b f_now f_min;
       do f_min' <- commit b f_now';
       ret (Continue, f_min', H)) s = (r, s') /\
    trace s' = trace s ++ EvCheck it xm f_min xn f_now :: evs /\
    buf s' (x_now b) = x' /\
    (forall v, r = Ok v -> buf s' (x_min b) = x') /\
    frame (fun l => l ∈ refs b) s s'.
Proof.
  intros Hr xm xn. ready_facts Hr.
  assert (Imin : x_min b ∈ refs b) by (apply list_elem_of_In; simpl; auto).
  assert (Inow : x_now b ∈ refs b) by (apply list_elem_of_In; simpl; auto).
  assert (Lmn : length xn = length xm) by (unfold xn, xm; congruence).
  destruct (converged_ok n it f_now f_min s Hr) as (r0 & Hc & Hcases).
  fold xm xn in Hc, Hcases.
  set (sc := log [EvCheck it xm f_min xn f_now] s) in *.
  assert (Hrc : ready (refs b) n sc) by (apply ready_log; exact Hr).
  assert (Fc : frame (fun l => l ∈ refs b) s sc) by apply frame_trace.
  destruct Hcases as [[-> Hcrit]|[[-> Hcrit]|(-> & Hn & Hnot)]].
  - (* the test passes *)
    exists (Ok (Break, f_now, H)), xn, [EvCommit xn f_now].
    eexists. split; [apply test_passes; exact Hcrit|].
    split; [rewrite (bind_ok _ _ _ _ _ Hc); mred;
            rewrite (bind_ok _ _ _ _ _ (commit_ok n f_now sc Hrc)); reflexivity|].
    change (buf sc (x_now b)) with xn. split; [|split; [|split]].
    + simpl. rewrite <- app_assoc. reflexivity.
    + simpl. apply buf_upd_ne. congruence.
    + intros _ _. apply buf_upd_eq. assumption.
    + eapply frame_trans; [exact Fc|]. eapply frame_trans; [|apply frame_trace].
      apply frame_refs_upd; [exact Imin|]. exact Lmn.
  - (* the test fails *)
    pose proof (line_search_ok n f_now f_min sc Hrc) as Hls.
    cbv zeta in Hls. change (buf sc (x_min b)) with xm in Hls.
    change (buf sc (x_now b)) with xn in Hls.
    set (m := midpoint xm xn) in *.
    assert (Lm : length m = length xn).
    { unfold m, midpoint. rewrite length_map. apply length_zip_same. congruence. }
    destruct (Qgeb f_now f_min) eqn:E1.
    + apply Qgeb_le in E1. destruct (Qltb (obj m) f_now) eqn:E2.
      * apply Qltb_lt in E2.
        set (sl := upd (x_now b) m (log [EvCall m] sc)) in *.
        assert (Hrl : ready (refs b) n sl).
        { apply ready_upd; [apply ready_log; exact Hrc|]. exact Lm. }
        assert (Bl : buf sl (x_now b) = m) by (apply buf_upd_eq; assumption).
        exists (Ok (Continue, obj m, H)), m, [EvCall m; EvCommit m (obj m)].
        eexists. split; [apply probe_taken; assumption|].
        split; [rewrite (bind_ok _ _ _ _ _ Hc); mred;
                rewrite (bind_ok _ _ _ _ _ Hls);
                rewrite (bind_ok _ _ _ _ _ (commit_ok n (obj m) sl Hrl)); reflexivity|].
        rewrite Bl. split; [|split; [|split]].
        -- simpl. rewrite <- !app_assoc. reflexivity.
        -- rewrite buf_log, buf_upd_ne by congruence. exact Bl.
        -- intros _ _. rewrite buf_log. apply buf_upd_eq. unfold sl.
           rewrite heap_upd_length. assumption.
        -- eapply frame_trans; [exact Fc|].
           apply frame_trans with (s2 := log [EvCall m] sc); [apply frame_trace|].
           apply frame_trans with (s2 := sl);
             [apply frame_refs_upd; [exact Inow|exact Lm]|].
           eapply frame_trans; [|apply frame_trace].
           apply frame_refs_upd; [exact Imin|].
           unfold sl. rewrite buf_upd_ne by congruence. rewrite buf_log.
           change (buf sc (x_min b)) with xm. congruence.
      * apply Qltb_ge in E2.
        set (sl := log [EvCall m] sc) in *.
        assert (Hrl : ready (refs b) n sl) by (apply ready_log; exact Hrc).
        exists (Ok (Continue, f_now, H)), xn, [EvCall m; EvCommit xn f_now].
        eexists. split; [apply probe_dropped; assumption|].
        split; [rewrite (bind_ok _ _ _ _ _ Hc); mred;
                rewrite (bind_ok _ _ _ _ _ Hls);
                rewrite (bind_ok _ _ _ _ _ (commit_ok n f_now sl Hrl)); reflexivity|].
        change (buf sl (x_now b)) with xn. split; [|split; [|split]].
        -- simpl. rewrite <- !app_assoc. reflexivity.
        -- simpl. apply buf_upd_ne. congruence.
        -- intros _ _. apply buf_upd_eq. assumption.
        -- eapply frame_trans; [exact Fc|].
           apply frame_trans with (s2 := sl); [apply frame_trace|].
           eapply frame_trans; [|apply frame_trace].
           apply frame_refs_upd; [exact Imin|]. exact Lmn.
    + apply Qgeb_lt in E1.
      exists (Ok (Continue, f_now, H)), xn, [EvCommit xn f_now].
      eexists. split; [apply no_probe; assumption|].
      split; [rewrite (bind_ok _ _ _ _ _ Hc); mred;
              rewrite (bind_ok _ _ _ _ _ Hls);
              rewrite (bind_ok _ _ _ _ _ (commit_ok n f_now sc Hrc)); reflexivity|].
      change (buf sc (x_now b)) with xn. split; [|split; [|split]].
      * simpl. rewrite <- app_assoc. reflexivity.
      * simpl. apply buf_upd_ne. congruence.
      * intros _ _. apply buf_upd_eq. assumption.
      * eapply frame_trans; [exact Fc|]. eapply frame_trans; [|apply frame_trace].
        apply frame_refs_upd; [exact Imin|]. exact Lmn.
  - (* np.amax raises *)
    exists (Raise ValueError), xn, [], sc.
    split; [apply test_raises; [|exact Hnot]|].
    { apply nil_length_inv. unfold xn. congruence. }
    split; [rewrite (bind_raise _ _ _ _ _ Hc); reflexivity|].
    split; [reflexivity|]. split; [reflexivity|]. split; [discriminate|exact Fc].
Qed.

Lemma iteration_ok (n it : nat) (f_min : Q) (hess : matrix) (s : state) :
  ready (refs b) n s -> square n hess ->
  exists H s1 calls,
    derivatives obj cfg b f_min hess (log [EvIter it] s) = (Ok H, s1) /\
    square n H /\ ready (refs b) n s1 /\
    frame (fun l => l ∈ refs b) s s1 /\
    trace s1 = trace s ++ EvIter it :: map EvCall calls /\
    match inv H with
    | None =>
        iteration obj det inv cfg b it f_min hess s = (Raise LinAlgError, s1)
    | Some Hi =>
        let xm := buf s1 (x_min b) in
        let xn := zip_with Qplus xm
                    (newton_direction det H Hi (buf s1 (grad b))) in
        exists r x' evs s',
          iteration obj det inv cfg b it f_min hess s = (r, s') /\
          goes_on obj cfg it xm f_min xn (obj xn) H r x' evs /\
          trace s' = trace s1 ++ EvCall xn :: EvCheck it xm f_min xn (obj xn) :: evs /\
          buf s' (x_now b) = x' /\
          (forall v, r = Ok v -> buf s' (x_min b) = x') /\
          ready (refs b) n s' /\
          frame (fun l => l ∈ refs b) s s'
    end.
Proof.
  intros Hr Hsq.
  destruct (derivatives_ok n f_min hess (log [EvIter it] s) (ready_log _ _ _ _ Hr) Hsq)
    as (H & s1 & calls & Hder & F1 & HsqH & _ & _ & Htr1).
  assert (F01 : frame (fun l => l ∈ refs b) s s1).
  { eapply frame_trans; [apply frame_trace|exact F1]. }
  assert (Hr1 : ready (refs b) n s1) by (eapply ready_frame; [exact F01|exact Hr]).
  exists H, s1, calls. split; [exact Hder|]. split; [exact HsqH|].
  split; [exact Hr1|]. split; [exact F01|].
  split; [rewrite Htr1; simpl; rewrite <- app_assoc; reflexivity|].
  ready_facts Hr1.
  assert (Inow : x_now b ∈ refs b) by (apply list_elem_of_In; simpl; auto).
  destruct (direction_ok n H s1 HsqH) as [Hdir Hlen]; [assumption|].
  assert (Hemit : emit (EvIter it) s = (Ok tt, log [EvIter it] s)) by reflexivity.
  destruct (inv H) as [Hi|] eqn:Einv.
  - intros xm xn. specialize (Hlen Hi eq_refl).
    set (d := newton_direction det H Hi (buf s1 (grad b))) in *.
    pose proof (update_ok n d s1 Hr1 Hlen) as Hupd. cbv zeta in Hupd.
    fold xm in Hupd. fold xn in Hupd.
    set (s2 := log [EvCall xn] (upd (x_now b) xn s1)) in *.
    assert (Lxn : length xn = length (buf s1 (x_now b))).
    { unfold xn. rewrite length_zip_same; unfold xm; congruence. }
    assert (F12 : frame (fun l => l ∈ refs b) s1 s2).
    { eapply frame_trans; [|apply frame_trace].
      apply frame_refs_upd; [exact Inow|exact Lxn]. }
    assert (Hr2 : ready (refs b) n s2) by (eapply ready_frame; [exact F12|exact Hr1]).
    assert (Bm : buf s2 (x_min b) = xm).
    { unfold s2. rewrite buf_log. apply buf_upd_ne. congruence. }
    assert (Bn : buf s2 (x_now b) = xn).
    { unfold s2. rewrite buf_log. apply buf_upd_eq. assumption. }
    destruct (finish_ok n it (obj xn) f_min H s2 Hr2)
      as (r & x' & evs & s' & Hgo & Hfin & Htr & Bx' & Bm' & F2').
    rewrite Bm, Bn in Hgo, Htr.
    exists r, x', evs, s'. split; [|split; [exact Hgo|split; [|split; [exact Bx'|split; [exact Bm'|split]]]]].
    + unfold iteration. rewrite (bind_ok _ _ _ _ _ Hemit).
      rewrite (bind_ok _ _ _ _ _ Hder). rewrite (bind_ok _ _ _ _ _ Hdir).
      rewrite (bind_ok _ _ _ _ _ Hupd). exact Hfin.
    + rewrite Htr. unfold s2. simpl. rewrite <- app_assoc. reflexivity.
    + eapply ready_frame; [exact F2'|exact Hr2].
    + eapply frame_trans; [exact F01|]. eapply frame_trans; [exact F12|exact F2'].
  - unfold iteration. rewrite (bind_ok _ _ _ _ _ Hemit).
    rewrite (bind_ok _ _ _ _ _ Hder). rewrite (bind_raise _ _ _ _ _ Hdir). reflexivity.
Qed.

End Parts.

(** ** The loop *)

Lemma iterations_app (e1 e2 : list event) :
  iterations (e1 ++ e2) = iterations e1 + iterations e2.
Proof. unfold iterations. rewrite List.filter_app, length_app. reflexivity. Qed.

Lemma iterations_calls (calls : list (list Q)) : iterations (map EvCall calls) = 0.
Proof. induction calls; [reflexivity|exact IHcalls]. Qed.

Lemma check_fails_calls (cfg : config) (calls : list (list Q)) :
  Forall (check_fails cfg) (map EvCall calls).
Proof. induction calls; constructor; [exact I|assumption]. Qed.

Section GoesOn.

Variable obj : ndarray -> Q.
Variable cfg : config.

Lemma goes_on_events it xm f_min xn f_now H r x' evs :
  goes_on obj cfg it xm f_min xn f_now H r x' evs ->
  Forall (check_fails cfg) evs /\ iterations evs = 0.
Proof.
  intros Hgo. inversion Hgo; subst; split; try reflexivity;
    repeat constructor.
Qed.

Lemma goes_on_continue it xm f_min xn f_now H f' H' x' evs :
  goes_on obj cfg it xm f_min xn f_now H (Ok (Continue, f', H')) x' evs ->
  ~ criterion cfg it xm f_min xn f_now /\ H' = H.
Proof. intros Hgo. inversion Hgo; subst; split; auto. Qed.

Lemma goes_on_break it xm f_min xn f_now H f' H' x' evs :
  goes_on obj cfg it xm f_min xn f_now H (Ok (Break, f', H')) x' evs ->
  criterion cfg it xm f_min xn f_now /\ f' = f_now /\ x' = xn /\
  evs = [EvCommit xn f_now].
Proof. intros Hgo. inversion Hgo; subst; auto. Qed.

Lemma goes_on_raise it xm f_min xn f_now H e x' evs :
  goes_on obj cfg it xm f_min xn f_now H (Raise e) x' evs ->
  e = ValueError /\ xn = [] /\ x' = xn /\ evs = [].
Proof. intros Hgo. inversion Hgo; subst; auto. Qed.

End GoesOn.

Section Loop.

Variable obj : ndarray -> Q.
Variable det : matrix -> Q.
Variable inv : matrix -> option matrix.
Variable cfg : config.
Variable b : buffers.

Hypothesis inv_square :
  forall n H Hi, square n H -> inv H = Some Hi -> square n Hi.

Lemma iterate_ok (n : nat) :
  forall (fuel it : nat) (f_min : Q) (hess : matrix) (s : state),
  ready (refs b) n s -> square n hess -> it + fuel = max_iter cfg ->
  exists r s' evs,
    iterate obj det inv cfg b fuel it f_min hess s = (r, s') /\
    trace s' = trace s ++ evs /\
    frame (fun l => l ∈ refs b) s s' /\
    iterations evs <= fuel /\
    match r with
    | Ok _ => (fuel = 0 /\ s' = s) \/ stops_at cfg evs (buf s' (x_min b))
    | Raise LinAlgError =>
        (exists H, square n H /\ inv H = None) /\ Forall (check_fails cfg) evs
    | Raise ValueError => n = 0
    | Raise IndexError => False
    end.
Proof.
  induction fuel as [|fuel IH]; intros it f_min hess s Hr Hsq Hfuel.
  { exists (Ok tt), s, []. simpl. rewrite app_nil_r.
    split; [reflexivity|]. split; [reflexivity|]. split; [apply frame_refl|].
    split; [unfold iterations; simpl; lia|]. left. split; reflexivity. }
  destruct (iteration_ok obj det inv cfg b inv_square n it f_min hess s Hr Hsq)
    as (H & s1 & calls & _ & HsqH & Hr1 & F1 & Htr1 & Hit).
  destruct (inv H) as [Hi|] eqn:Einv.
  2:{ (* no inverse *)
    exists (Raise LinAlgError), s1, (EvIter it :: map EvCall calls).
    split; [simpl; rewrite (bind_raise _ _ _ _ _ Hit); reflexivity|].
    split; [exact Htr1|]. split; [exact F1|]. split.
    - change (EvIter it :: map EvCall calls) with ([EvIter it] ++ map EvCall calls).
      rewrite iterations_app, iterations_calls. unfold iterations. simpl. lia.
    - split; [exists H; split; assumption|].
      constructor; [exact I|apply check_fails_calls]. }
  cbv zeta in Hit.
  set (xm := buf s1 (x_min b)) in *.
  set (xn := zip_with Qplus xm (newton_direction det H Hi (buf s1 (grad b)))) in *.
  destruct Hit as (r1 & x' & evs1 & s2 & Hrun & Hgo & Htr2 & Bx' & Bm' & Hr2 & F2).
  destruct (goes_on_events obj cfg _ _ _ _ _ _ _ _ _ Hgo) as [Hcf1 Hni1].
  set (pre := EvIter it :: map EvCall calls ++ [EvCall xn]).
  assert (Htr : trace s2
                = trace s ++ pre ++ EvCheck it xm f_min xn (obj xn) :: evs1).
  { rewrite Htr2, Htr1. unfold pre. simpl. rewrite <- !app_assoc. reflexivity. }
  assert (Hpre_it : iterations pre = 1).
  { unfold pre. change (EvIter it :: map EvCall calls ++ [EvCall xn])
      with ([EvIter it] ++ map EvCall calls ++ [EvCall xn]).
    rewrite !iterations_app, iterations_calls. reflexivity. }
  assert (Hpre_cf : Forall (check_fails cfg) pre).
  { unfold pre. constructor; [exact I|]. apply Forall_app. split.
    - apply check_fails_calls.
    - constructor; [exact I|constructor]. }
  destruct r1 as [[[c f'] H']|e].
  - destruct c.
    + (* break *)
      apply goes_on_break in Hgo as (Hcrit & -> & -> & ->).
      exists (Ok tt), s2, (pre ++ [EvCheck it xm f_min xn (obj xn); EvCommit xn (obj xn)]).
      split; [simpl; rewrite (bind_ok _ _ _ _ _ Hrun); reflexivity|].
      split; [exact Htr|]. split; [exact F2|]. split.
      * rewrite iterations_app, Hpre_it. unfold iterations. simpl. lia.
      * right. rewrite (Bm' _ eq_refl).
        exists pre, it, xm, f_min, (obj xn). repeat split; auto. lia.
    + (* continue *)
      apply goes_on_continue in Hgo as [Hncrit ->].
      destruct (IH (S it) f' H s2 Hr2 HsqH) as (r & s' & evs & Hrun' & Htr' & F' & Hni & Hres);
        [lia|].
      exists r, s', (pre ++ EvCheck it xm f_min xn (obj xn) :: evs1 ++ evs).
      split; [simpl; rewrite (bind_ok _ _ _ _ _ Hrun); exact Hrun'|].
      split.
      { rewrite Htr', Htr. rewrite <- !app_assoc. reflexivity. }
      split; [eapply frame_trans; [exact F2|exact F']|]. split.
      { change (EvCheck it xm f_min xn (obj xn) :: evs1 ++ evs)
          with ([EvCheck it xm f_min xn (obj xn)] ++ evs1 ++ evs).
        rewrite !iterations_app, Hpre_it, Hni1. unfold iterations at 1. simpl. lia. }
      assert (Hcf : Forall (check_fails cfg)
                      (pre ++ EvCheck it xm f_min xn (obj xn) :: evs1)).
      { apply Forall_app. split; [exact Hpre_cf|]. constructor; [exact Hncrit|exact Hcf1]. }
      destruct r as [u|[]].
      * destruct Hres as [[-> _]|(pre' & k & xm' & fm' & fn' & -> & Hk & Hcrit & Hcf')].
        { exfalso. apply Hncrit. right. right. lia. }
        right. exists ((pre ++ EvCheck it xm f_min xn (obj xn) :: evs1) ++ pre'),
                 k, xm', fm', fn'.
        split; [rewrite <- !app_assoc; reflexivity|]. split; [exact Hk|].
        split; [exact Hcrit|]. apply Forall_app. split; assumption.
      * exact Hres.
      * exact Hres.
      * destruct Hres as [Hex Hcf']. split; [exact Hex|].
        replace (pre ++ EvCheck it xm f_min xn (obj xn) :: evs1 ++ evs)
          with ((pre ++ EvCheck it xm f_min xn (obj xn) :: evs1) ++ evs)
          by (rewrite <- !app_assoc; reflexivity).
        apply Forall_app. split; assumption.
  - (* the test raises *)
    apply goes_on_raise in Hgo as (-> & Hxn & -> & ->).
    exists (Raise ValueError), s2, (pre ++ [EvCheck it xm f_min xn (obj xn)]).
    split; [simpl; rewrite (bind_raise _ _ _ _ _ Hrun); reflexivity|].
    split; [exact Htr|]. split; [exact F2|]. split.
    + rewrite iterations_app, Hpre_it. unfold iterations. simpl. lia.
    + ready_facts Hr2. rewrite Bx', Hxn in *. simpl in *. congruence.
Qed.

End Loop.

(** ** Footprints *)

Create HintDb footprint.

Lemma writes_in_pure {A} (P : loc -> Prop) (m : M A) :
  (forall s, snd (m s) = s) -> writes_in P m.
Proof.
  intros H s. rewrite H. split; [reflexivity|]. split; [reflexivity|].
  exists []. rewrite app_nil_r. reflexivity.
Qed.

Lemma writes_in_ret {A} (P : loc -> Prop) (a : A) : writes_in P (ret a).
Proof. apply writes_in_pure. reflexivity. Qed.

Lemma writes_in_raise {A} (P : loc -> Prop) (e : exn) : writes_in P (@raise A e).
Proof. apply writes_in_pure. reflexivity. Qed.

Lemma writes_in_lift {A} (P : loc -> Prop) (r : res A) : writes_in P (lift r).
Proof. apply writes_in_pure. reflexivity. Qed.

Lemma writes_in_emit (P : loc -> Prop) (e : event) : writes_in P (emit e).
Proof.
  intros s. split; [reflexivity|]. split; [reflexivity|]. exists [e]. reflexivity.
Qed.

Lemma writes_in_deref (P : loc -> Prop) (a : loc) : writes_in P (deref a).
Proof. apply writes_in_pure. reflexivity. Qed.

Lemma writes_in_size (P : loc -> Prop) (a : loc) : writes_in P (size a).
Proof. apply writes_in_pure. reflexivity. Qed.

Lemma writes_in_getitem (P : loc -> Prop) (a : loc) (i : nat) :
  writes_in P (getitem a i).
Proof.
  apply writes_in_pure. intros s. unfold getitem.
  destruct (buf s a !! i); reflexivity.
Qed.

Lemma writes_in_upd (P : loc -> Prop) (a : loc) (v : list Q) (s : state) :
  P a ->
  length (heap (upd a v s)) = length (heap s) /\
  (forall l, ~ P l -> heap (upd a v s) !! l = heap s !! l) /\
  exists evs, trace (upd a v s) = trace s ++ evs.
Proof.
  intros Ha. split; [apply heap_upd_length|]. split.
  - intros l Hl. apply list_lookup_insert_ne. intros ->. auto.
  - exists []. rewrite app_nil_r. reflexivity.
Qed.

Lemma writes_in_setitem (P : loc -> Prop) (a : loc) (i : nat) (v : Q) :
  P a -> writes_in P (setitem a i v).
Proof.
  intros Ha s. unfold setitem. destruct (i <? length (buf s a)).
  - apply writes_in_upd. exact Ha.
  - apply (writes_in_ret P tt).
Qed.

Lemma writes_in_setslice (P : loc -> Prop) (a : loc) (v : list Q) :
  P a -> writes_in P (setslice a v).
Proof.
  intros Ha s. unfold setslice. destruct (broadcast_to (buf s a) v).
  - apply writes_in_upd. exact Ha.
  - apply (writes_in_ret P tt).
Qed.

Lemma writes_in_bind {A B} (P : loc -> Prop) (m : M A) (f : A -> M B) :
  writes_in P m -> (forall a, writes_in P (f a)) -> writes_in P (bind m f).
Proof.
  intros Hm Hf s. unfold bind. specialize (Hm s).
  destruct (m s) as [[a|e] s1]; simpl in Hm.
  - destruct (Hf a s1) as (L & U & evs & T). destruct Hm as (L1 & U1 & evs1 & T1).
    split; [congruence|]. split.
    + intros l Hl. rewrite U, U1; auto.
    + exists (evs1 ++ evs). rewrite T, T1, app_assoc. reflexivity.
  - exact Hm.
Qed.

Lemma writes_in_for_range (P : loc -> Prop) (body : nat -> M unit) :
  (forall i, writes_in P (body i)) ->
  forall count start, writes_in P (for_range start count body).
Proof.
  intros Hb. induction count as [|c IH]; intros start; simpl.
  - apply writes_in_ret.
  - apply writes_in_bind; [apply Hb|]. intros _. apply IH.
Qed.

Lemma writes_in_fold_range {S} (P : loc -> Prop) (body : nat -> S -> M S) :
  (forall i acc, writes_in P (body i acc)) ->
  forall count start acc, writes_in P (fold_range start count body acc).
Proof.
  intros Hb. induction count as [|c IH]; intros start acc; simpl.
  - apply writes_in_ret.
  - apply writes_in_bind; [apply Hb|]. intros acc'. apply IH.
Qed.

#[local] Hint Resolve writes_in_ret writes_in_raise writes_in_lift writes_in_emit
  writes_in_deref writes_in_size writes_in_getitem writes_in_setitem
  writes_in_setslice : footprint.
#[local] Hint Extern 2 (writes_in _ (bind _ _)) =>
  apply writes_in_bind; [|intros] : footprint.
#[local] Hint Extern 2 (writes_in _ (for_range _ _ _)) =>
  apply writes_in_for_range; intros : footprint.
#[local] Hint Extern 2 (writes_in _ (fold_range _ _ _ _)) =>
  apply writes_in_fold_range; intros : footprint.
#[local] Hint Extern 3 (writes_in _ (if ?c then _ else _)) =>
  destruct c : footprint.

Section Footprint.

Variable obj : ndarray -> Q.
Variable det : matrix -> Q.
Variable inv : matrix -> option matrix.
Variable cfg : config.

Lemma writes_in_call_obj (P : loc -> Prop) (x : loc) : writes_in P (call_obj obj x).
Proof. unfold call_obj, eval_obj. auto 10 with footprint. Qed.

Lemma writes_in_num_grad (P : loc -> Prop) (x grad x_grad : loc) (h f0 : Q) :
  P x -> P grad -> writes_in P (num_grad obj x h f0 grad x_grad).
Proof.
  intros Hx Hg. unfold num_grad, num_grad_body, view, call_obj, eval_obj.
  auto 20 with footprint.
Qed.

Lemma writes_in_num_hess (P : loc -> Prop) (x grad x_grad x_hess grad_hess : loc)
    (h : Q) (hess : matrix) :
  P x_hess -> P grad_hess ->
  writes_in P (num_hess obj x h grad hess x_grad x_hess grad_hess).
Proof.
  intros Hx Hg. unfold num_hess, num_hess_body, view, call_obj, eval_obj.
  pose proof (fun f0 => writes_in_num_grad P x_hess grad_hess x_grad h f0 Hx Hg).
  auto 30 with footprint.
Qed.

Lemma writes_in_iteration (b : buffers) (it : nat) (f_min : Q) (hess : matrix) :
  writes_in (fun l => l ∈ refs b) (iteration obj det inv cfg b it f_min hess).
Proof.
  assert (I1 : x_min b ∈ refs b) by (apply list_elem_of_In; simpl; auto).
  assert (I2 : x_now b ∈ refs b) by (apply list_elem_of_In; simpl; auto).
  assert (I4 : x_hess b ∈ refs b) by (apply list_elem_of_In; simpl; auto).
  assert (I5 : grad b ∈ refs b) by (apply list_elem_of_In; simpl; auto 10).
  assert (I6 : grad_hess b ∈ refs b) by (apply list_elem_of_In; simpl; auto 10).
  pose proof (fun f0 => writes_in_num_grad (fun l => l ∈ refs b)
                          (x_min b) (grad b) (x_grad b) (grad_step cfg) f0 I1 I5).
  pose proof (fun H => writes_in_num_hess (fun l => l ∈ refs b)
                         (x_min b) (grad b) (x_grad b) (x_hess b) (grad_hess b)
                         (grad_step cfg) H I4 I6).
  unfold iteration, derivatives, direction, update, converged, commit,
    line_search, linalg_inv, view, call_obj, eval_obj.
  apply writes_in_bind; [auto with footprint|intros _].
  apply writes_in_bind; [auto 10 with footprint|intros H'].
  apply writes_in_bind.
  { destruct (inv H'); auto 20 with footprint. }
  intros d. apply writes_in_bind; [auto 20 with footprint|intros f_now].
  apply writes_in_bind.
  { apply writes_in_bind; [auto with footprint|intros xn].
    apply writes_in_bind; [auto with footprint|intros xm].
    apply writes_in_bind; [auto with footprint|intros _].
    destruct (Qltb _ _); [auto with footprint|].
    apply writes_in_bind; [auto with footprint|intros diff].
    apply writes_in_bind; [auto with footprint|intros m].
    destruct (Qltb _ _); auto with footprint. }
  intros [|].
  - auto 20 with footprint.
  - apply writes_in_bind; [|auto 20 with footprint].
    destruct (Qgeb _ _); [|auto with footprint].
    apply writes_in_bind; [auto with footprint|intros xm].
    apply writes_in_bind; [auto with footprint|intros xn].
    apply writes_in_bind; [auto with footprint|intros sm].
    apply writes_in_bind; [auto 10 with footprint|intros f_step].
    destruct (Qltb _ _); auto 10 with footprint.
Qed.

Lemma writes_in_iterate (b : buffers) :
  forall fuel it f_min hess,
    writes_in (fun l => l ∈ refs b) (iterate obj det inv cfg b fuel it f_min hess).
Proof.
  induction fuel as [|fuel IH]; intros it f_min hess; simpl.
  - apply writes_in_ret.
  - apply writes_in_bind; [apply writes_in_iteration|].
    intros [[[|] f'] H']; [apply writes_in_ret|apply IH].
Qed.

End Footprint.

(** ** A whole run *)

Lemma copy_loop_ok (x0 xm : loc) (xs0 : list Q) :
  forall (c k : nat) (s : state),
  x0 <> xm -> xm < length (heap s) ->
  buf s x0 = xs0 -> length (buf s xm) = length xs0 -> k + c = length xs0 ->
  (forall j, j < k -> buf s xm !! j = xs0 !! j) ->
  exists s',
    for_range k c (fun i => do v <- getitem x0 i; setitem xm i v) s = (Ok tt, s') /\
    frame (fun l => l = xm) s s' /\
    buf s' xm = xs0 /\ trace s' = trace s.
Proof.
  induction c as [|c IH]; intros k s Hne Hm Hx0 Hlen Hk Hlo.
  - exists s. simpl. split; [reflexivity|]. split; [apply frame_refl|].
    split; [|reflexivity]. apply list_eq. intros j.
    destruct (decide (j < k)) as [Hj|Hj]; [apply Hlo; exact Hj|].
    rewrite !lookup_ge_None_2 by lia. reflexivity.
  - destruct (lookup_lt_is_Some_2 xs0 k) as [v Hv]; [lia|].
    set (s1 := upd xm (<[k:=v]> (buf s xm)) s).
    assert (Hbody : (do v <- getitem x0 k; setitem xm k v) s = (Ok tt, s1)).
    { rewrite (bind_ok _ _ s s v) by (apply getitem_ok; rewrite Hx0; exact Hv).
      apply setitem_ok. lia. }
    assert (F1 : frame (fun l => l = xm) s s1).
    { apply frame_upd; [reflexivity|]. apply length_insert. }
    assert (B1 : buf s1 xm = <[k:=v]> (buf s xm)) by (apply buf_upd_eq; exact Hm).
    destruct (IH (S k) s1) as (s' & Hrun & F & Bx & Htr); try assumption.
    + unfold s1. rewrite heap_upd_length. exact Hm.
    + unfold s1. rewrite buf_upd_ne by congruence. exact Hx0.
    + rewrite B1, length_insert. exact Hlen.
    + lia.
    + intros j Hj. rewrite B1. destruct (decide (j = k)) as [->|Hjk].
      * rewrite list_lookup_insert_eq by lia. symmetry. exact Hv.
      * rewrite list_lookup_insert_ne by congruence. apply Hlo. lia.
    + exists s'. split; [|split; [|split]].
      * simpl. rewrite (bind_ok _ _ _ _ _ Hbody). exact Hrun.
      * eapply frame_trans; [exact F1|exact F].
      * exact Bx.
      * rewrite Htr. reflexivity.
Qed.

(* the state of a run after its six allocations *)
Lemma buf_allocated (dim i : nat) (s : state) (t : list event) :
  i < 6 ->
  length (heap s) + i < length (heap s ++ replicate 6 (zeros dim)) /\
  buf (mkState (heap s ++ replicate 6 (zeros dim)) t) (length (heap s) + i)
  = zeros dim.
Proof.
  intros Hi. split.
  - rewrite length_app, length_replicate. lia.
  - unfold buf. cbn [heap]. rewrite lookup_app_r by lia.
    replace (length (heap s) + i - length (heap s)) with i by lia.
    rewrite lookup_replicate_2 by exact Hi. reflexivity.
Qed.

Lemma allocations_ready (dim : nat) (s : state) :
  let L := length (heap s) in
  let s6 := mkState (heap s ++ replicate 6 (zeros dim)) (trace s) in
  ready (refs (mkBuffers L (L + 1) (L + 2) (L + 3) (L + 4) (L + 5))) dim s6.
Proof.
  intros L s6. rewrite <- (Nat.add_0_r L) at 1. split.
  - unfold refs. simpl.
    repeat (apply NoDup_cons; split;
            [rewrite ?not_elem_of_cons; repeat split; try lia; apply not_elem_of_nil|]).
    apply NoDup_nil. exact I.
  - assert (Hall : forall i, i < 6 ->
              L + i < length (heap s6) /\ length (buf s6 (L + i)) = dim).
    { intros i Hi. destruct (buf_allocated dim i s (trace s) Hi) as [Hv Hb].
      split; [exact Hv|]. unfold s6, L. rewrite Hb. apply length_replicate. }
    unfold refs. cbn [x_min x_now x_grad x_hess grad grad_hess].
    repeat (constructor; [apply Hall; lia|]). constructor.
Qed.

Section WholeRun.

Variable obj : ndarray -> Q.
Variable det : matrix -> Q.
Variable inv : matrix -> option matrix.
Variable cfg : config.

Lemma newton_raphson_allocations (x0 : loc) (s : state) :
  let dim := length (buf s x0) in
  let L := length (heap s) in
  let b := mkBuffers L (L + 1) (L + 2) (L + 3) (L + 4) (L + 5) in
  let s6 := mkState (heap s ++ replicate 6 (zeros dim)) (trace s) in
  newton_raphson obj det inv cfg x0 s =
    (exec for_range 0 dim (fun i => do v <- getitem x0 i; setitem (x_min b) i v);
     do f_min <- call_obj obj (x_min b);
     exec iterate obj det inv cfg b (max_iter cfg) 0 f_min (zeros2 dim dim);
     ret (x_min b)) s6.
Proof.
  intros dim L b s6. unfold newton_raphson.
  unfold bind at 1, size at 1. fold dim.
  set (z := zeros dim).
  do 6 (unfold bind at 1, alloc at 1; cbn [heap trace]).
  rewrite !length_app. cbn [length]. fold L.
  replace (L + 1 + 1) with (L + 2) by lia.
  replace (L + 2 + 1) with (L + 3) by lia.
  replace (L + 3 + 1) with (L + 4) by lia.
  replace (L + 4 + 1) with (L + 5) by lia.
  rewrite <- !app_assoc. reflexivity.
Qed.

Hypothesis inv_square :
  forall n H Hi, square n H -> inv H = Some Hi -> square n Hi.

Lemma initial_copy_ok (x0 : loc) (s : state) :
  let dim := length (buf s x0) in
  let L := length (heap s) in
  let s6 := mkState (heap s ++ replicate 6 (zeros dim)) (trace s) in
  exists s7,
    for_range 0 dim (fun i => do v <- getitem x0 i; setitem L i v) s6 = (Ok tt, s7) /\
    frame (fun l => l = L) s6 s7 /\
    buf s7 L = buf s x0 /\ trace s7 = trace s.
Proof.
  intros dim L s6.
  destruct (buf_allocated dim 0 s (trace s)) as [HL HbL]; [lia|].
  rewrite Nat.add_0_r in HL, HbL. fold L in HL, HbL. fold s6 in HbL.
  destruct (decide (dim = 0)) as [E|E].
  - exists s6. rewrite E. simpl. split; [reflexivity|]. split; [apply frame_refl|].
    split; [|reflexivity]. rewrite HbL, E. simpl. symmetry.
    apply nil_length_inv. exact E.
  - assert (Hx0 : x0 < L).
    { unfold dim, buf in E. destruct (heap s !! x0) eqn:Ex; [|simpl in E; lia].
      eapply lookup_lt_Some. exact Ex. }
    assert (Hb0 : buf s6 x0 = buf s x0).
    { unfold buf, s6. cbn [heap]. rewrite lookup_app_l by exact Hx0. reflexivity. }
    destruct (copy_loop_ok x0 L (buf s x0) dim 0 s6) as (s7 & Hrun & F & Bx & Htr).
    + lia.
    + exact HL.
    + exact Hb0.
    + rewrite HbL. apply length_replicate.
    + reflexivity.
    + intros j Hj. lia.
    + exists s7. split; [exact Hrun|]. split; [exact F|]. split; [exact Bx|exact Htr].
Qed.

Lemma newton_raphson_ok (x0 : loc) (s : state) :
  let dim := length (buf s x0) in
  exists r s' evs,
    newton_raphson obj det inv cfg x0 s = (r, s') /\
    trace s' = trace s ++ EvCall (buf s x0) :: evs /\
    iterations evs <= max_iter cfg /\
    match r with
    | Ok l =>
        l = length (heap s) /\ length (buf s' l) = dim /\
        ((max_iter cfg = 0 /\ buf s' l = buf s x0) \/ stops_at cfg evs (buf s' l))
    | Raise LinAlgError =>
        (exists H, square dim H /\ inv H = None) /\ Forall (check_fails cfg) evs
    | Raise ValueError => dim = 0
    | Raise IndexError => False
    end.
Proof.
  intros dim. rewrite newton_raphson_allocations. fold dim.
  set (L := length (heap s)).
  set (b := mkBuffers L (L + 1) (L + 2) (L + 3) (L + 4) (L + 5)).
  set (s6 := mkState (heap s ++ replicate 6 (zeros dim)) (trace s)).
  pose proof (allocations_ready dim s) as Hr6. cbv zeta in Hr6. fold L b s6 in Hr6.
  destruct (initial_copy_ok x0 s) as (s7 & Hcopy & F67 & B7 & Htr7).
  fold dim L s6 in Hcopy, F67. fold L in B7.
  assert (Hr7 : ready (refs b) dim s7) by (eapply ready_frame; [exact F67|exact Hr6]).
  set (s8 := log [EvCall (buf s x0)] s7).
  assert (Hcall : call_obj obj (x_min b) s7 = (Ok (obj (buf s x0)), s8)).
  { unfold call_obj, eval_obj, deref, emit, ret, bind. cbn [x_min b].
    rewrite B7. reflexivity. }
  destruct (iterate_ok obj det inv cfg b inv_square dim (max_iter cfg) 0
              (obj (buf s x0)) (zeros2 dim dim) s8)
    as (r & s' & evs & Hrun & Htr & F & Hni & Hres).
  { apply ready_log. exact Hr7. }
  { apply square_zeros2. }
  { reflexivity. }
  assert (Htrace : trace s' = trace s ++ EvCall (buf s x0) :: evs).
  { rewrite Htr. unfold s8. simpl. rewrite Htr7, <- app_assoc. reflexivity. }
  destruct r as [u|e].
  - exists (Ok L), s', evs.
    split; [rewrite (bind_ok _ _ _ _ _ Hcopy), (bind_ok _ _ _ _ _ Hcall),
            (bind_ok _ _ _ _ _ Hrun); reflexivity|].
    split; [exact Htrace|]. split; [exact Hni|]. split; [reflexivity|].
    assert (HLn : length (buf s' L) = dim).
    { destruct F as (_ & HS & _). rewrite HS.
      ready_facts Hr7. cbn [x_min b] in *. assumption. }
    split; [exact HLn|].
    destruct Hres as [[E ->]|Hstop].
    + left. split; [exact E|]. exact B7.
    + right. exact Hstop.
  - exists (Raise e), s', evs.
    split; [rewrite (bind_ok _ _ _ _ _ Hcopy), (bind_ok _ _ _ _ _ Hcall),
            (bind_raise _ _ _ _ _ Hrun); reflexivity|].
    split; [exact Htrace|]. split; [exact Hni|]. exact Hres.
Qed.

End WholeRun.

(** ** The exact inverse keeps the shape *)

Lemma inv_exact_square (n : nat) (H Hi : matrix) :
  square n H -> inv_exact H = Some Hi -> square n Hi.
Proof.
  intros [Hn _]. unfold inv_exact.
  destruct (is_square H && negb (Qeq_bool (det_exact H) 0)); [|discriminate].
  intros [= <-]. rewrite Hn. split.
  - rewrite length_map, length_seq. reflexivity.
  - rewrite map_fmap. apply Forall_fmap. apply Forall_forall. intros i _.
    simpl. rewrite length_map, length_seq. reflexivity.
Qed.

(** * Main results *)

(** C9: for every base step [h > 0] and every coordinate value [x], zero and
    negative ones included, the step [max(h*x, h)] both estimators divide by
    is at least [h], hence positive and not zero. *)
Theorem step_at_least_grad_step (h x : Q) :
  (0 < h)%Q ->
  (h <= step_of h x)%Q /\ (0 < step_of h x)%Q /\ ~ (step_of h x == 0)%Q.
Proof.
  intros Hh. assert (Hge : (h <= step_of h x)%Q) by apply fmax_ge_r.
  assert (Hpos : (0 < step_of h x)%Q) by (eapply Qlt_le_trans; eauto).
  split; [exact Hge|]. split; [exact Hpos|].
  intros E. rewrite E in Hpos. exact (Qlt_irrefl 0 Hpos).
Qed.

Lemma step_at_least_grad_step_witness :
  ((1 # 100000) <= step_of (1 # 100000) (-3))%Q /\
  (0 < step_of (1 # 100000) (-3))%Q /\
  ~ (step_of (1 # 100000) (-3) == 0)%Q.
Proof. apply (step_at_least_grad_step (1 # 100000) (-3)). reflexivity. Defined.

(** C1: on [obj(x) = x[0]*x[1]] at [x = [1, 1]] with [grad_step = 1e-5],
    [num_grad] calls [obj] at [[1.00001, 1]] and then at [[1.00001, 1.00001]]:
    the second point keeps the move of coordinate 0, and [grad[1]] comes out
    as 2.00001, where the forward difference along coordinate 1 alone from
    the point as passed in is 1. *)
Theorem num_grad_perturbs_cumulatively :
  let h := (1 # 100000)%Q in
  let s := mkState [[1; 1]; [0; 0]; [0; 0]]%Q [] in
  let s' := snd (num_grad product 0 h (product [1; 1]%Q) 1 2 s) in
  map (map Qred) (called (trace s'))
  = [[100001 # 100000; 1]; [100001 # 100000; 100001 # 100000]]%Q /\
  map Qred (buf s' 1) = [1; 200001 # 100000]%Q /\
  Qred (forward_difference product h (product [1; 1]%Q) [1; 1]%Q 1 1) = 1%Q.
Proof. vm_compute. repeat split. Qed.

(** C2: on the same input, when [num_grad] returns the caller's [x] holds
    [[1.00001, 1.00001]] instead of [[1, 1]], while the scratch buffer passed
    as [x_grad] was never written: the name [x_grad] was bound to a view of
    [x]. *)
Theorem num_grad_overwrites_its_input :
  let h := (1 # 100000)%Q in
  let s := mkState [[1; 1]; [0; 0]; [0; 0]]%Q [] in
  let s' := snd (num_grad product 0 h (product [1; 1]%Q) 1 2 s) in
  buf s 0 = [1; 1]%Q /\
  map Qred (buf s' 0) = [100001 # 100000; 100001 # 100000]%Q /\
  buf s' 2 = buf s 2.
Proof. vm_compute. repeat split. Qed.

Lemma writes_in_mono {A} (P P' : loc -> Prop) (m : M A) :
  (forall l, P l -> P' l) -> writes_in P m -> writes_in P' m.
Proof.
  intros HP Hm s. destruct (Hm s) as (L & U & T).
  split; [exact L|]. split; [|exact T]. intros l Hl. apply U. auto.
Qed.

(** C10: a call of the optimizer leaves every buffer the store held before
    the call, the caller's [x0] among them, as it was, however the call ends;
    the first objective call is on a copy of the contents of [x0]; and the
    vector returned is a reference allocated by the call, different from
    [x0]. *)
Theorem caller_vector_untouched (obj : ndarray -> Q) (det : matrix -> Q)
    (inv : matrix -> option matrix) (cfg : config) (x0 : loc) (s s' : state)
    (r : res loc) :
  x0 < length (heap s) ->
  newton_raphson obj det inv cfg x0 s = (r, s') ->
  (forall l, l < length (heap s) -> heap s' !! l = heap s !! l) /\
  (forall l, r = Ok l -> l = length (heap s) /\ l <> x0) /\
  exists evs, trace s' = trace s ++ EvCall (buf s x0) :: evs.
Proof.
  intros Hx0 Hrun. rewrite newton_raphson_allocations in Hrun.
  set (dim := length (buf s x0)) in *. set (L := length (heap s)) in *.
  set (b := mkBuffers L (L + 1) (L + 2) (L + 3) (L + 4) (L + 5)) in *.
  set (s6 := mkState (heap s ++ replicate 6 (zeros dim)) (trace s)) in *.
  destruct (initial_copy_ok x0 s) as (s7 & Hcopy & F67 & B7 & Htr7).
  fold dim L s6 in Hcopy, F67. fold L in B7.
  rewrite (bind_ok _ _ _ _ _ Hcopy) in Hrun.
  set (s8 := log [EvCall (buf s x0)] s7).
  assert (Hcall : call_obj obj (x_min b) s7 = (Ok (obj (buf s x0)), s8)).
  { unfold call_obj, eval_obj, deref, emit, ret, bind. cbn [x_min b].
    rewrite B7. reflexivity. }
  rewrite (bind_ok _ _ _ _ _ Hcall) in Hrun.
  pose proof (writes_in_iterate obj det inv cfg b (max_iter cfg) 0
                (obj (buf s x0)) (zeros2 dim dim) s8) as (HL & HU & evs & HT).
  unfold bind in Hrun.
  destruct (iterate obj det inv cfg b (max_iter cfg) 0 (obj (buf s x0))
              (zeros2 dim dim) s8) as [[u|e] s9] eqn:Hit;
    cbn [snd] in HL, HU, HT; unfold ret in Hrun; injection Hrun as <- <-.
  all: assert (Hold : forall l, l < L -> heap s9 !! l = heap s !! l).
  all: try (intros l Hl; rewrite HU;
            [|unfold refs; cbn [x_min x_now x_grad x_hess grad grad_hess b];
              rewrite !elem_of_cons, elem_of_nil; lia];
            destruct F67 as (HL7 & _ & HU7);
            assert (Hl6 : l < length (heap s6))
              by (unfold s6; cbn [heap]; rewrite length_app; fold L; lia);
            assert (Hl7 : l < length (heap s7)) by (rewrite HL7; exact Hl6);
            change (heap s8) with (heap s7);
            rewrite (buf_valid s7 l Hl7), HU7 by lia;
            rewrite <- (buf_valid s6 l Hl6);
            unfold s6; cbn [heap]; apply lookup_app_l; exact Hl).
  all: split; [exact Hold|]; split.
  - intros l [= <-]. cbn [x_min b]. split; [reflexivity|]. unfold L. lia.
  - exists evs. rewrite HT. unfold s8. simpl. rewrite Htr7, <- app_assoc. reflexivity.
  - intros l [=].
  - exists evs. rewrite HT. unfold s8. simpl. rewrite Htr7, <- app_assoc. reflexivity.
Qed.

Lemma caller_vector_untouched_witness :
  let s := mkState [[-1]%Q] [] in
  let run := newton_raphson double_well det_exact inv_exact coarse_config 0 s in
  (forall l, l < 1 -> heap (snd run) !! l = heap s !! l) /\
  (forall l, fst run = Ok l -> l = 1 /\ l <> 0) /\
  exists evs, trace (snd run) = EvCall [-1]%Q :: evs.
Proof.
  intros s run.
  apply (caller_vector_untouched double_well det_exact inv_exact coarse_config
           0 s (snd run) (fst run)).
  - simpl. lia.
  - vm_compute. reflexivity.
Defined.

(** C6: on distinct buffers of the dimension of [x], [num_hess] returns a
    matrix whose column [i] is [(g_pert - g)/s_i], with [s_i] the step at
    [x_i], [g] the gradient it was given and [g_pert] what [num_grad] computes
    at [x] moved by [s_i] along [i], with the objective value there as its
    baseline.  Nothing makes the matrix symmetric: for [obj(x) = x[0]*x[1]] at
    [[1, 1]] the entries [H[0,1]] and [H[1,0]] differ. *)
Theorem hessian_columns (obj : ndarray -> Q) (x grad x_grad x_hess grad_hess : loc)
    (h : Q) (n : nat) (hess : matrix) (s : state) :
  ready [x; grad; x_hess; grad_hess] n s -> square n hess ->
  (exists H' s',
     num_hess obj x h grad hess x_grad x_hess grad_hess s = (Ok H', s') /\
     forall i xi j gp gj,
       buf s x !! i = Some xi ->
       let xp := <[i := (xi + step_of h xi)%Q]> (buf s x) in
       gradient_estimate obj h (obj xp) xp !! j = Some gp ->
       buf s grad !! j = Some gj ->
       entry H' j i = Some ((gp - gj) / step_of h xi)%Q) /\
  (exists H a c,
     fst (num_hess product 0 (1 # 100000) 1 (zeros2 2 2) 2 3 4
            (mkState [[1; 1]; [1; 1]; [0; 0]; [0; 0]; [0; 0]]%Q [])) = Ok H /\
     entry H 0 1 = Some a /\ entry H 1 0 = Some c /\ ~ (a == c)%Q).
Proof.
  intros Hr Hsq. split.
  - destruct (num_hess_ok obj x grad x_grad x_hess grad_hess h n hess s Hr Hsq)
      as (H' & s' & Hrun & _ & _ & Hcol & _).
    exists H', s'. split; [exact Hrun|exact Hcol].
  - eexists. eexists. eexists. split; [vm_compute; reflexivity|].
    split; [vm_compute; reflexivity|]. split; [vm_compute; reflexivity|].
    vm_compute. discriminate.
Qed.

Lemma hessian_columns_witness :
  let s := mkState [[1; 1]; [1; 1]; [0; 0]; [0; 0]; [0; 0]]%Q [] in
  (ready [0; 1; 3; 4] 2 s /\ square 2 (zeros2 2 2)) /\
  exists H' s',
    num_hess product 0 (1 # 100000) 1 (zeros2 2 2) 2 3 4 s = (Ok H', s').
Proof.
  intros s.
  assert (Hr : ready [0; 1; 3; 4] 2 s) by (apply (@bool_decide_unpack _ (ready_dec _ _ _)); vm_compute; exact I).
  assert (Hsq : square 2 (zeros2 2 2))
    by (apply (@bool_decide_unpack _ (square_dec _ _)); vm_compute; exact I).
  split; [split; assumption|].
  destruct (hessian_columns product 0 1 2 3 4 (1 # 100000) 2 (zeros2 2 2) s Hr Hsq)
    as [(H' & s' & Hrun & _) _].
  exists H', s'. exact Hrun.
Defined.



(** C5: an outer iteration that completes either met the criterion in its
    convergence test, and then [obj] is not called after the test; or it did
    not, and then: if [f_now < f_min], [obj] is not called again and the
    candidate stays; if [f_now >= f_min], [obj] is called exactly once more,
    at the midpoint [0.5*(x_min + x_now)], and the midpoint and its value
    replace the candidate when that value is strictly below [f_now], and only
    then.  So there is at most one probe in an iteration. *)
Theorem one_midpoint_probe (obj : ndarray -> Q) (det : matrix -> Q)
    (inv : matrix -> option matrix) (cfg : config) (b : buffers)
    (n it : nat) (f_min f' : Q) (hess H' : matrix) (c : control)
    (s s' : state) :
  (forall n H Hi, square n H -> inv H = Some Hi -> square n Hi) ->
  ready (refs b) n s -> square n hess ->
  iteration obj det inv cfg b it f_min hess s = (Ok (c, f', H'), s') ->
  exists pre xm xn f_now post,
    trace s' = trace s ++ pre ++ EvCheck it xm f_min xn f_now :: post /\
    ((criterion cfg it xm f_min xn f_now /\ c = Break /\ called post = [])
     \/
     (~ criterion cfg it xm f_min xn f_now /\ c = Continue /\
      (((f_now < f_min)%Q /\ called post = [] /\
        f' = f_now /\ buf s' (x_now b) = xn)
       \/
       ((f_min <= f_now)%Q /\ called post = [midpoint xm xn] /\
        (((obj (midpoint xm xn) < f_now)%Q /\
          f' = obj (midpoint xm xn) /\ buf s' (x_now b) = midpoint xm xn)
         \/
         ((f_now <= obj (midpoint xm xn))%Q /\
          f' = f_now /\ buf s' (x_now b) = xn)))))).
Proof.
  intros inv_square Hr Hsq Hrun.
  destruct (iteration_ok obj det inv cfg b inv_square n it f_min hess s Hr Hsq)
    as (H & s1 & calls & _ & _ & _ & _ & Htr1 & Hit).
  destruct (inv H) as [Hi|]; [|rewrite Hit in Hrun; discriminate].
  cbv zeta in Hit.
  destruct Hit as (r & x' & evs & s2 & Hrun2 & Hgo & Htr & Bx' & _).
  rewrite Hrun in Hrun2. injection Hrun2 as <- <-.
  set (xm := buf s1 (x_min b)) in *.
  set (xn := zip_with Qplus xm (newton_direction det H Hi (buf s1 (grad b)))) in *.
  exists (EvIter it :: map EvCall calls ++ [EvCall xn]), xm, xn, (obj xn), evs.
  split.
  { rewrite Htr, Htr1. simpl. rewrite <- !app_assoc. reflexivity. }
  inversion Hgo; subst.
  - left. repeat split; first [assumption|reflexivity].
  - right. split; [assumption|]. split; [reflexivity|]. left.
    repeat split; first [assumption|reflexivity|symmetry; assumption].
  - right. split; [assumption|]. split; [reflexivity|]. right.
    split; [assumption|]. split; [reflexivity|].
    left. repeat split; first [assumption|reflexivity|symmetry; assumption].
  - right. split; [assumption|]. split; [reflexivity|]. right.
    split; [assumption|]. split; [reflexivity|].
    right. repeat split; first [assumption|reflexivity|symmetry; assumption].
Qed.

Lemma one_midpoint_probe_witness :
  first_iteration
  = (Ok (Continue, first_iteration_f_min, first_iteration_hess), snd first_iteration) /\
  exists pre xm xn f_now post,
    trace (snd first_iteration)
    = trace first_iteration_state ++ pre ++ EvCheck 0 xm (-2) xn f_now :: post.
Proof.
  assert (Hr : ready (refs run_buffers) 1 first_iteration_state)
    by (apply (@bool_decide_unpack _ (ready_dec _ _ _)); vm_compute; exact I).
  assert (Hsq : square 1 [[0%Q]])
    by (apply (@bool_decide_unpack _ (square_dec _ _)); vm_compute; exact I).
  assert (E : first_iteration
              = (Ok (Continue, first_iteration_f_min, first_iteration_hess),
                 snd first_iteration)) by (vm_compute; reflexivity).
  split; [exact E|].
  destruct (one_midpoint_probe double_well det_exact inv_exact coarse_config
              run_buffers 1 0 (-2) first_iteration_f_min [[0%Q]]
              first_iteration_hess Continue first_iteration_state
              (snd first_iteration) inv_exact_square Hr Hsq E)
    as (pre & xm & xn & f_now & post & Htr & _).
  exists pre, xm, xn, f_now, post. exact Htr.
Defined.

(** C4: an outer iteration that goes on to the next one ends by copying
    [x_now] into [x_min] and taking [f_now] as the new [f_min]; no comparison
    with the old [f_min] stands before that.  So the committed values need not
    decrease: on [obj(x) = x**4 - 3*x**2] from [x0 = [-1]] with
    [grad_step = 1], [obj(x0) = -2], the candidate of the first iteration has
    value -11/16, the midpoint does no better, and -11/16 is committed. *)
Theorem commit_without_comparison (obj : ndarray -> Q) (det : matrix -> Q)
    (inv : matrix -> option matrix) (cfg : config) (b : buffers)
    (n it : nat) (f_min f' : Q) (hess H' : matrix) (s s' : state) :
  (forall n H Hi, square n H -> inv H = Some Hi -> square n Hi) ->
  ready (refs b) n s -> square n hess ->
  iteration obj det inv cfg b it f_min hess s = (Ok (Continue, f', H'), s') ->
  (buf s' (x_min b) = buf s' (x_now b) /\
   exists pre, trace s' = trace s ++ pre ++ [EvCommit (buf s' (x_now b)) f']) /\
  (fst double_well_run = Ok 1 /\
   Qred (double_well [-1]%Q) = (-2)%Q /\
   map Qred (committed (trace (snd double_well_run))) = [-11 # 16; -11 # 16]%Q /\
   map (map Qred) (called (trace (snd double_well_run)))
   = [[-1]; [0]; [1]; [2]; [-1 # 2]; [-1 # 4]; [1 # 2]; [3 # 2]; [3]; [1 # 2]]%Q).
Proof.
  intros inv_square Hr Hsq Hrun. split.
  - destruct (iteration_ok obj det inv cfg b inv_square n it f_min hess s Hr Hsq)
      as (H & s1 & calls & _ & _ & _ & _ & Htr1 & Hit).
    destruct (inv H) as [Hi|]; [|rewrite Hit in Hrun; discriminate].
    cbv zeta in Hit.
    destruct Hit as (r & x' & evs & s2 & Hrun2 & Hgo & Htr & Bx' & Bm' & _).
    rewrite Hrun in Hrun2. injection Hrun2 as <- <-.
    rewrite (Bm' _ eq_refl), Bx'. split; [reflexivity|].
    set (xm := buf s1 (x_min b)) in *.
    set (xn := zip_with Qplus xm (newton_direction det H Hi (buf s1 (grad b)))) in *.
    assert (Hlast : exists mid, evs = mid ++ [EvCommit x' f']).
    { inversion Hgo; subst.
      - exists []. reflexivity.
      - exists [EvCall (midpoint xm xn)]. reflexivity.
      - exists [EvCall (midpoint xm xn)]. reflexivity. }
    destruct Hlast as [mid ->].
    exists (EvIter it :: map EvCall calls
            ++ [EvCall xn; EvCheck it xm f_min xn (obj xn)] ++ mid).
    rewrite Htr, Htr1. simpl. rewrite <- !app_assoc. reflexivity.
  - vm_compute. repeat split.
Qed.

Lemma commit_without_comparison_witness :
  buf (snd first_iteration) 1 = buf (snd first_iteration) 2 /\
  (-2 < first_iteration_f_min)%Q.
Proof.
  assert (Hr : ready (refs run_buffers) 1 first_iteration_state)
    by (apply (@bool_decide_unpack _ (ready_dec _ _ _)); vm_compute; exact I).
  assert (Hsq : square 1 [[0%Q]])
    by (apply (@bool_decide_unpack _ (square_dec _ _)); vm_compute; exact I).
  assert (E : first_iteration
              = (Ok (Continue, first_iteration_f_min, first_iteration_hess),
                 snd first_iteration)) by (vm_compute; reflexivity).
  split.
  - apply (commit_without_comparison double_well det_exact inv_exact coarse_config
             run_buffers 1 0 (-2) first_iteration_f_min [[0%Q]]
             first_iteration_hess first_iteration_state (snd first_iteration)
             inv_exact_square Hr Hsq E).
  - vm_compute. reflexivity.
Defined.

(** C3: with [max_iter >= 1], the loop is left at the first outer iteration
    whose convergence test met the criterion: [|f_now - f_min| < tol_fun], or
    every [|x_now_i - x_min_i| < tol_x], or the counter at [max_iter - 1].
    A run that returns did meet it, committed that iteration's candidate and
    value before leaving the loop, and returns a vector that holds this
    candidate, also when the initial guess already met the tolerances.  A
    run that ends in the exception of [np.linalg.inv] met it in no test. *)
Theorem stops_at_first_converged_iteration (obj : ndarray -> Q)
    (det : matrix -> Q) (inv : matrix -> option matrix) (cfg : config)
    (x0 : loc) (s : state) :
  (forall n H Hi, square n H -> inv H = Some Hi -> square n Hi) ->
  1 <= max_iter cfg ->
  exists r s' evs,
    newton_raphson obj det inv cfg x0 s = (r, s') /\
    trace s' = trace s ++ EvCall (buf s x0) :: evs /\
    match r with
    | Ok l =>
        exists pre k xm fm fn,
          evs = pre ++ [EvCheck k xm fm (buf s' l) fn; EvCommit (buf s' l) fn] /\
          k < max_iter cfg /\
          criterion cfg k xm fm (buf s' l) fn /\
          Forall (check_fails cfg) pre
    | Raise LinAlgError => Forall (check_fails cfg) evs
    | Raise ValueError => buf s x0 = []
    | Raise IndexError => False
    end.
Proof.
  intros inv_square Hk.
  destruct (newton_raphson_ok obj det inv cfg inv_square x0 s)
    as (r & s' & evs & Hrun & Htr & _ & Hres).
  exists r, s', evs. split; [exact Hrun|]. split; [exact Htr|].
  destruct r as [l|[]].
  - destruct Hres as (_ & _ & [[E _]|Hstop]); [lia|]. exact Hstop.
  - exact Hres.
  - apply nil_length_inv. exact Hres.
  - apply Hres.
Qed.

Lemma stops_at_first_converged_iteration_witness :
  exists s' pre k xm fm fn,
    double_well_run = (Ok 1, s') /\
    trace s' = EvCall [-1]%Q :: pre
               ++ [EvCheck k xm fm (buf s' 1) fn; EvCommit (buf s' 1) fn] /\
    k < 2.
Proof.
  destruct (stops_at_first_converged_iteration double_well det_exact inv_exact
              coarse_config 0 (mkState [[-1]%Q] [])
              inv_exact_square (le_S 1 1 (le_n 1)))
    as (r & s' & evs & Hrun & Htr & Hres).
  assert (E : r = Ok 1).
  { assert (E1 : fst double_well_run = Ok 1) by (vm_compute; reflexivity).
    change (double_well_run = (r, s')) in Hrun. rewrite Hrun in E1. exact E1. }
  subst r. destruct Hres as (pre & k & xm & fm & fn & -> & Hk & _).
  exists s', pre, k, xm, fm, fn. split; [exact Hrun|]. split; [exact Htr|exact Hk].
Defined.

(** C8, as the code has it: for every [max_iter = k >= 1] given to
    [create_optimizer], a call of the optimizer begins at most [k] outer
    iterations and always ends.  It ends with a vector of the dimension of
    [x0], or with an exception a library call raised: [LinAlgError] from
    [np.linalg.inv] on a Hessian estimate it finds no inverse for, or
    [ValueError] from [np.amax] when [x0] is empty. *)
Theorem iteration_cap_and_outcomes (obj : ndarray -> Q) (det : matrix -> Q)
    (inv : matrix -> option matrix) (k : nat) (h tf tx : Q)
    (x0 : loc) (s : state) :
  (forall n H Hi, square n H -> inv H = Some Hi -> square n Hi) ->
  1 <= k ->
  exists r s' evs,
    create_optimizer obj det inv k h tf tx x0 s = (r, s') /\
    trace s' = trace s ++ EvCall (buf s x0) :: evs /\
    iterations evs <= k /\
    match r with
    | Ok l => length (buf s' l) = length (buf s x0)
    | Raise LinAlgError =>
        exists H, square (length (buf s x0)) H /\ inv H = None
    | Raise ValueError => buf s x0 = []
    | Raise IndexError => False
    end.
Proof.
  intros inv_square _. unfold create_optimizer.
  destruct (newton_raphson_ok obj det inv (mkConfig k h tf tx) inv_square x0 s)
    as (r & s' & evs & Hrun & Htr & Hni & Hres).
  exists r, s', evs. split; [exact Hrun|]. split; [exact Htr|]. split; [exact Hni|].
  destruct r as [l|[]].
  - apply Hres.
  - exact Hres.
  - apply nil_length_inv. exact Hres.
  - apply Hres.
Qed.

Lemma iteration_cap_and_outcomes_witness :
  exists r s' evs,
    double_well_run = (r, s') /\
    trace s' = EvCall [-1]%Q :: evs /\
    iterations evs <= 2.
Proof.
  destruct (iteration_cap_and_outcomes double_well det_exact inv_exact
              2 1 (1 # 1000000) (1 # 100000) 0 (mkState [[-1]%Q] [])
              inv_exact_square (le_S 1 1 (le_n 1)))
    as (r & s' & evs & Hrun & Htr & Hni & _).
  exists r, s', evs. split; [exact Hrun|]. split; [exact Htr|exact Hni].
Defined.

(** C8, as stated, fails: on the constant objective from [x0 = [0]], with
    the default options, the Hessian estimate is the zero matrix and the call
    ends in the [LinAlgError] of [np.linalg.inv], not in a vector. *)
Lemma constant_objective_raises :
  1 <= 5000 /\
  fst (create_optimizer constant_one det_exact inv_exact
         5000 (1 # 100000) (1 # 1000000) (1 # 100000) 0
         (mkState [[0]%Q] [])) = Raise LinAlgError.
Proof.
  split.
  - lia.
  - vm_compute. reflexivity.
Qed.

(** * Further results on the estimators *)

(** X1: on two distinct buffers of the same length, [num_grad] ends without
    an exception, has called [obj] once per coordinate, at the array with
    coordinates [0..j] all moved by their steps for call [j], has written
    [(obj(that array) - f0)/s_j] into [grad[j]], and leaves [x] with every
    coordinate moved by its step. *)
Theorem num_grad_law (obj : ndarray -> Q) (x grad x_grad : loc) (h f0 : Q)
    (s : state) :
  x < length (heap s) -> grad < length (heap s) -> x <> grad ->
  length (buf s grad) = length (buf s x) ->
  exists s',
    num_grad obj x h f0 grad x_grad s = (Ok tt, s') /\
    trace s' = trace s ++ map (fun j => EvCall (perturbed h (S j) (buf s x)))
                              (seq 0 (length (buf s x))) /\
    (forall j xj, buf s x !! j = Some xj ->
       buf s' grad !! j
       = Some ((obj (perturbed h (S j) (buf s x)) - f0) / step_of h xj)%Q /\
       buf s' x !! j = Some (xj + step_of h xj)%Q) /\
    length (buf s' x) = length (buf s x).
Proof.
  intros Hx Hg Hne Hlen.
  destruct (num_grad_ok obj x grad x_grad h f0 s Hx Hg Hne Hlen)
    as (s' & Hrun & _ & Bx & Bg & Htr).
  exists s'. split; [exact Hrun|]. split.
  { rewrite Htr. unfold num_grad_calls. rewrite map_map. reflexivity. }
  split.
  - intros j xj Hj. split.
    + rewrite Bg. unfold num_grad_values. rewrite list_lookup_imap, Hj. reflexivity.
    + rewrite Bx. unfold perturbed. rewrite list_lookup_imap, Hj. simpl.
      apply lookup_lt_Some in Hj. apply Nat.ltb_lt in Hj. rewrite Hj. reflexivity.
  - rewrite Bx. apply perturbed_length.
Qed.

Lemma num_grad_law_witness :
  let s := mkState [[1; 1]; [0; 0]; [0; 0]]%Q [] in
  exists s', num_grad product 0 (1 # 100000) 1 1 2 s = (Ok tt, s') /\
             length (buf s' 0) = 2.
Proof.
  intros s.
  destruct (num_grad_law product 0 1 2 (1 # 100000) 1 s)
    as (s' & Hrun & _ & _ & Hlen).
  - simpl. lia.
  - simpl. lia.
  - lia.
  - reflexivity.
  - exists s'. split; [exact Hrun|exact Hlen].
Defined.

(** X2: under the same conditions the first entry of the gradient is the
    forward difference of [obj] along coordinate 0 from the array as passed
    in; for a one-dimensional [x] this is the whole gradient. *)
Theorem num_grad_first_coordinate (obj : ndarray -> Q) (x grad x_grad : loc)
    (h f0 x0 : Q) (s : state) :
  x < length (heap s) -> grad < length (heap s) -> x <> grad ->
  length (buf s grad) = length (buf s x) ->
  buf s x !! 0 = Some x0 ->
  let s' := snd (num_grad obj x h f0 grad x_grad s) in
  buf s' grad !! 0 = Some (forward_difference obj h f0 (buf s x) 0 x0) /\
  (length (buf s x) = 1 ->
   buf s' grad = [forward_difference obj h f0 (buf s x) 0 x0]).
Proof.
  intros Hx Hg Hne Hlen H0 s'.
  destruct (num_grad_ok obj x grad x_grad h f0 s Hx Hg Hne Hlen)
    as (s1 & Hrun & (_ & HS & _) & _ & Bg & _).
  unfold s'. rewrite Hrun. cbn [snd].
  assert (E : buf s1 grad !! 0 = Some (forward_difference obj h f0 (buf s x) 0 x0)).
  { rewrite Bg. unfold num_grad_values. rewrite list_lookup_imap, H0. simpl.
    unfold forward_difference.
    rewrite <- (perturbed_S h 0 (buf s x) x0 H0), perturbed_0. reflexivity. }
  split; [exact E|]. intros L1.
  assert (L : length (buf s1 grad) = 1) by (rewrite HS; congruence).
  destruct (buf s1 grad) as [|g [|g' l]]; try discriminate.
  simpl in E. congruence.
Qed.

Lemma num_grad_first_coordinate_witness :
  let s := mkState [[1; 1]; [0; 0]; [0; 0]]%Q [] in
  buf (snd (num_grad product 0 (1 # 100000) 1 1 2 s)) 1 !! 0
  = Some (forward_difference product (1 # 100000) 1 [1; 1]%Q 0 1).
Proof.
  intros s.
  apply (num_grad_first_coordinate product 0 1 2 (1 # 100000) 1 1 s).
  - simpl. lia.
  - simpl. lia.
  - lia.
  - reflexivity.
  - reflexivity.
Defined.

(** X3: whatever its arguments and however it ends, [num_grad] allocates
    nothing and writes into the buffers of [x] and [grad] only: every other
    buffer, the one passed as [x_grad] included, holds what it held. *)
Theorem num_grad_footprint (obj : ndarray -> Q) (x grad x_grad : loc) (h f0 : Q)
    (s : state) (l : loc) :
  l <> x -> l <> grad ->
  let s' := snd (num_grad obj x h f0 grad x_grad s) in
  length (heap s') = length (heap s) /\ heap s' !! l = heap s !! l.
Proof.
  intros Hx Hg s'.
  destruct (writes_in_num_grad obj (fun l => l = x \/ l = grad) x grad x_grad h f0
              (or_introl eq_refl) (or_intror eq_refl) s) as (HL & HU & _).
  split; [exact HL|]. apply HU. intros [?|?]; congruence.
Qed.

Lemma num_grad_footprint_witness :
  let s := mkState [[1; 1]; [0; 0]; [7; 7]]%Q [] in
  heap (snd (num_grad product 0 (1 # 100000) 1 1 2 s)) !! 2 = Some [7; 7]%Q.
Proof.
  intros s.
  apply (num_grad_footprint product 0 1 2 (1 # 100000) 1 s 2); lia.
Defined.

(** X4: on four distinct buffers of the dimension [n] of [x] and an [n x n]
    matrix, [num_hess] ends without an exception with an [n x n] matrix, and
    [x] and [grad] hold what they held: unlike [num_grad], it works on a copy
    of [x]. *)
Theorem num_hess_keeps_its_inputs (obj : ndarray -> Q)
    (x grad x_grad x_hess grad_hess : loc) (h : Q) (n : nat) (hess : matrix)
    (s : state) :
  ready [x; grad; x_hess; grad_hess] n s -> square n hess ->
  exists H' s',
    num_hess obj x h grad hess x_grad x_hess grad_hess s = (Ok H', s') /\
    square n H' /\
    buf s' x = buf s x /\ buf s' grad = buf s grad.
Proof.
  intros Hr Hsq.
  destruct (num_hess_ok obj x grad x_grad x_hess grad_hess h n hess s Hr Hsq)
    as (H' & s' & Hrun & (_ & _ & HU) & Hsq' & _).
  apply ready_inv4 in Hr as ((N1 & N2 & N3 & N4 & N5 & N6) & _).
  exists H', s'. split; [exact Hrun|]. split; [exact Hsq'|].
  split; apply HU; intros [?|?]; congruence.
Qed.

Lemma num_hess_keeps_its_inputs_witness :
  let s := mkState [[1; 1]; [1; 1]; [0; 0]; [0; 0]; [0; 0]]%Q [] in
  exists H' s',
    num_hess product 0 (1 # 100000) 1 (zeros2 2 2) 2 3 4 s = (Ok H', s') /\
    buf s' 0 = [1; 1]%Q.
Proof.
  intros s.
  assert (Hr : ready [0; 1; 3; 4] 2 s)
    by (apply (@bool_decide_unpack _ (ready_dec _ _ _)); vm_compute; exact I).
  assert (Hsq : square 2 (zeros2 2 2))
    by (apply (@bool_decide_unpack _ (square_dec _ _)); vm_compute; exact I).
  destruct (num_hess_keeps_its_inputs product 0 1 2 3 4 (1 # 100000) 2
              (zeros2 2 2) s Hr Hsq) as (H' & s' & Hrun & _ & Bx & _).
  exists H', s'. split; [exact Hrun|exact Bx].
Defined.

(** ** The cost of the estimators in objective calls *)

Lemma called_app (e1 e2 : list event) : called (e1 ++ e2) = called e1 ++ called e2.
Proof. unfold called. apply flat_map_app. Qed.

Lemma called_calls (calls : list (list Q)) : called (map EvCall calls) = calls.
Proof. induction calls as [|c calls IH]; [reflexivity|]. simpl. rewrite IH. reflexivity. Qed.

Lemma num_grad_calls_length (h : Q) (xs : list Q) :
  length (num_grad_calls h xs) = length xs.
Proof. unfold num_grad_calls. rewrite length_map, length_seq. reflexivity. Qed.

Section Cost.

Variable obj : ndarray -> Q.

Lemma num_hess_body_trace (x grad x_grad x_hess grad_hess : loc) (h xi : Q)
    (n i : nat) (hess : matrix) (s : state) :
  x_hess < length (heap s) -> grad_hess < length (heap s) ->
  x <> x_hess -> x <> grad_hess -> grad <> x_hess -> grad <> grad_hess ->
  x_hess <> grad_hess ->
  length (buf s x) = n -> length (buf s grad) = n ->
  length (buf s x_hess) = n -> length (buf s grad_hess) = n ->
  square n hess -> buf s x !! i = Some xi ->
  let xp := <[i := (xi + step_of h xi)%Q]> (buf s x) in
  exists H' s',
    num_hess_body obj x h grad x_grad x_hess grad_hess i hess s = (Ok H', s') /\
    trace s' = trace s ++ map EvCall (xp :: num_grad_calls h xp).
Proof.
  intros Hxh Hgh N1 N2 N3 N4 N5 Lx Lg Lxh Lgh Hsq Hxi xp.
  destruct (num_hess_body_ok obj x grad x_grad x_hess grad_hess h xi n i hess s)
    as (H' & s' & Hrun & _); try assumption.
  exists H', s'. split; [exact Hrun|].
  (* the same run, followed for its trace *)
  assert (Hi : i < n) by (rewrite <- Lx; eapply lookup_lt_Some; eauto).
  set (st := step_of h xi) in *.
  set (s1 := upd x_hess (buf s x) s).
  set (s2 := upd x_hess xp s1).
  set (s3 := log [EvCall xp] s2).
  assert (B1 : buf s1 x_hess = buf s x) by (apply buf_upd_eq; exact Hxh).
  assert (Hxh1 : x_hess < length (heap s1))
    by (unfold s1; rewrite heap_upd_length; exact Hxh).
  assert (B2 : buf s2 x_hess = xp) by (apply buf_upd_eq; exact Hxh1).
  assert (HL3 : length (heap s3) = length (heap s)).
  { unfold s3, s2, s1. cbn [heap log]. rewrite !heap_upd_length. reflexivity. }
  assert (Bgh3 : buf s3 grad_hess = buf s grad_hess).
  { unfold s3. rewrite buf_log. unfold s2, s1. rewrite !buf_upd_ne by congruence.
    reflexivity. }
  destruct (num_grad_ok obj x_hess grad_hess x_grad h (obj xp) s3)
    as (s4 & Hrun4 & F4 & _ & Bg4 & Htr4).
  { rewrite HL3. exact Hxh. }
  { rewrite HL3. exact Hgh. }
  { exact N5. }
  { rewrite Bgh3. change (buf s3 x_hess) with (buf s2 x_hess). rewrite B2.
    unfold xp. rewrite length_insert. congruence. }
  change (buf s3 x_hess) with (buf s2 x_hess) in Bg4, Htr4. rewrite B2 in Bg4, Htr4.
  assert (Bgrad : buf s4 grad = buf s grad).
  { destruct F4 as (_ & _ & HU4). rewrite HU4 by (intros [?|?]; congruence).
    unfold s3. rewrite buf_log. unfold s2, s1. rewrite !buf_upd_ne by congruence.
    reflexivity. }
  assert (Hs' : exists H4, num_hess_body obj x h grad x_grad x_hess grad_hess i hess s
                           = (H4, s4)).
  { unfold num_hess_body, view, call_obj, eval_obj, deref, emit, lift, ret, bind.
    rewrite (getitem_ok _ _ _ _ Hxi). cbv beta iota.
    rewrite setslice_ok by congruence. cbv beta iota. fold s1.
    rewrite setitem_ok by (rewrite B1; lia). cbv beta iota.
    rewrite B1. fold st xp s2. rewrite B2. fold s3.
    unfold call_obj, eval_obj, deref, emit, lift, ret, bind in Hrun4.
    rewrite Hrun4. cbv beta iota.
    destruct (broadcast2 Qminus (buf s4 grad_hess) (buf s4 grad)); [|eexists; reflexivity].
    destruct (set_col hess i _); eexists; reflexivity. }
  destruct Hs' as [H4 Hs']. rewrite Hrun in Hs'. injection Hs' as _ ->.
  rewrite Htr4. unfold s3. simpl. rewrite <- app_assoc. reflexivity.
Qed.

Lemma num_hess_loop_calls (x grad x_grad x_hess grad_hess : loc) (h : Q) (n : nat) :
  forall (c k : nat) (hess : matrix) (s : state),
  x_hess < length (heap s) -> grad_hess < length (heap s) ->
  x <> x_hess -> x <> grad_hess -> grad <> x_hess -> grad <> grad_hess ->
  x_hess <> grad_hess ->
  length (buf s x) = n -> length (buf s grad) = n ->
  length (buf s x_hess) = n -> length (buf s grad_hess) = n ->
  square n hess -> k + c = n ->
  exists H' s' calls,
    fold_range k c (num_hess_body obj x h grad x_grad x_hess grad_hess) hess s
      = (Ok H', s') /\
    trace s' = trace s ++ map EvCall calls /\
    length calls = c * (n + 1).
Proof.
  induction c as [|c IH];
    intros k hess s Hxh Hgh N1 N2 N3 N4 N5 Lx Lg Lxh Lgh Hsq Hk.
  - exists hess, s, []. simpl. rewrite app_nil_r. repeat split.
  - destruct (lookup_lt_is_Some_2 (buf s x) k) as [xk Hxk]; [lia|].
    destruct (num_hess_body_ok obj x grad x_grad x_hess grad_hess h xk n k hess s)
      as (H1 & s1 & Hrun1 & F1 & Hsq1 & _); try assumption.
    destruct (num_hess_body_trace x grad x_grad x_hess grad_hess h xk n k hess s)
      as (H1' & s1' & Hrun1' & Htr1); try assumption.
    rewrite Hrun1 in Hrun1'. injection Hrun1' as <- <-.
    pose proof F1 as (HL1 & HS1 & HU1).
    destruct (IH (S k) H1 s1)
      as (H' & s' & calls & Hrun & Htr & Hlen);
      try rewrite HL1; try rewrite !HS1; auto; try lia.
    eexists H', s', (_ ++ calls). split; [|split].
    + simpl. rewrite (bind_ok _ _ _ _ _ Hrun1). exact Hrun.
    + rewrite Htr, Htr1, map_app, app_assoc. reflexivity.
    + rewrite length_app. cbn [length]. rewrite num_grad_calls_length, length_insert.
      rewrite Hlen, Lx. lia.
Qed.

End Cost.

(** X5: on well-formed buffers of dimension [n], [num_grad] calls [obj]
    [n] times and [num_hess] calls it [n*(n+1)] times: once at each moved
    point and [n] times in the gradient estimate there. *)
Theorem estimators_cost (obj : ndarray -> Q)
    (x grad x_grad x_hess grad_hess : loc) (h f0 : Q) (n : nat) (hess : matrix)
    (s : state) :
  ready [x; grad; x_hess; grad_hess] n s -> square n hess ->
  (exists sg calls,
     num_grad obj x h f0 grad x_grad s = (Ok tt, sg) /\
     trace sg = trace s ++ map EvCall calls /\ length calls = n) /\
  (exists H' sh calls,
     num_hess obj x h grad hess x_grad x_hess grad_hess s = (Ok H', sh) /\
     trace sh = trace s ++ map EvCall calls /\ length calls = n * (n + 1)).
Proof.
  intros Hr Hsq.
  apply ready_inv4 in Hr as ((N1 & N2 & N3 & N4 & N5 & N6) & (V1 & V2 & V3 & V4)
                             & (L1 & L2 & L3 & L4)).
  split.
  - destruct (num_grad_ok obj x grad x_grad h f0 s V1 V2 N1)
      as (sg & Hrun & _ & _ & _ & Htr); [congruence|].
    exists sg, (num_grad_calls h (buf s x)). split; [exact Hrun|].
    split; [exact Htr|]. rewrite num_grad_calls_length. exact L1.
  - destruct (num_hess_loop_calls obj x grad x_grad x_hess grad_hess h n n 0 hess s)
      as (H' & sh & calls & Hrun & Htr & Hlen); try assumption; try congruence.
    + reflexivity.
    + exists H', sh, calls. split; [|split; assumption].
      unfold num_hess, size, bind. rewrite L1. exact Hrun.
Qed.

Lemma estimators_cost_witness :
  let s := mkState [[1; 1]; [1; 1]; [0; 0]; [0; 0]; [0; 0]]%Q [] in
  exists H' sh calls,
    num_hess product 0 (1 # 100000) 1 (zeros2 2 2) 2 3 4 s = (Ok H', sh) /\
    trace sh = map EvCall calls /\ length calls = 6.
Proof.
  intros s.
  assert (Hr : ready [0; 1; 3; 4] 2 s)
    by (apply (@bool_decide_unpack _ (ready_dec _ _ _)); vm_compute; exact I).
  assert (Hsq : square 2 (zeros2 2 2))
    by (apply (@bool_decide_unpack _ (square_dec _ _)); vm_compute; exact I).
  destruct (estimators_cost product 0 1 2 3 4 (1 # 100000) 1 2 (zeros2 2 2) s Hr Hsq)
    as [_ (H' & sh & calls & Hrun & Htr & Hlen)].
  exists H', sh, calls. split; [exact Hrun|]. split; [exact Htr|exact Hlen].
Defined.

Section IterationCost.

Variable obj : ndarray -> Q.
Variable det : matrix -> Q.
Variable inv : matrix -> option matrix.
Variable cfg : config.
Variable b : buffers.

Hypothesis inv_square :
  forall n H Hi, square n H -> inv H = Some Hi -> square n Hi.

Lemma derivatives_calls (n : nat) (f_min : Q) (hess : matrix) (s : state) :
  ready (refs b) n s -> square n hess ->
  exists H s1 calls,
    derivatives obj cfg b f_min hess s = (Ok H, s1) /\
    trace s1 = trace s ++ map EvCall calls /\
    length calls = n + n * (n + 1).
Proof.
  intros Hr Hsq. ready_facts Hr.
  assert (Lx : length (buf s (x_min b)) = n) by assumption.
  destruct (num_grad_ok obj (x_min b) (grad b) (x_grad b) (grad_step cfg) f_min s)
    as (sa & Hrun1 & Fa & _ & _ & Htra); try assumption; try congruence.
  pose proof Fa as (HLa & HSa & _).
  destruct (num_hess_loop_calls obj (x_min b) (grad b) (x_grad b) (x_hess b)
              (grad_hess b) (grad_step cfg) n n 0 hess sa)
    as (Hm & s1 & calls & Hrun2 & Htr1 & Hlen);
    try rewrite HLa; try rewrite !HSa; try assumption; try congruence;
    try reflexivity.
  exists Hm, s1, (num_grad_calls (grad_step cfg) (buf s (x_min b)) ++ calls).
  split; [|split].
  - unfold derivatives. rewrite (bind_ok _ _ _ _ _ Hrun1).
    unfold num_hess, size, bind. rewrite HSa, Lx. exact Hrun2.
  - rewrite Htr1, Htra, map_app, app_assoc. reflexivity.
  - rewrite length_app, num_grad_calls_length, Hlen, Lx. reflexivity.
Qed.

Lemma goes_on_calls it xm f_min xn f_now H r x' evs :
  goes_on obj cfg it xm f_min xn f_now H r x' evs ->
  length (called evs) <= 1 /\
  (forall f' H', r = Ok (Break, f', H') -> called evs = []).
Proof.
  intros Hgo. inversion Hgo; subst; simpl; split; try lia; try reflexivity;
    intros f' H' [=].
Qed.

Lemma iteration_calls (n it : nat) (f_min : Q) (hess : matrix) (s : state) :
  ready (refs b) n s -> square n hess ->
  exists r s' evs,
    iteration obj det inv cfg b it f_min hess s = (r, s') /\
    trace s' = trace s ++ evs /\
    ready (refs b) n s' /\
    length (called evs) <= (n + 1) * (n + 1) + 1 /\
    forall c f' H', r = Ok (c, f', H') ->
      square n H' /\
      (n + 1) * (n + 1) <= length (called evs) /\
      (c = Break -> length (called evs) = (n + 1) * (n + 1)).
Proof.
  intros Hr Hsq.
  destruct (iteration_ok obj det inv cfg b inv_square n it f_min hess s Hr Hsq)
    as (H & s1 & calls0 & Hder & HsqH & Hr1 & _ & _ & Hit).
  destruct (derivatives_calls n f_min hess (log [EvIter it] s)
              (ready_log _ _ _ _ Hr) Hsq)
    as (H2 & s2 & calls & Hder2 & Htr1 & Hlen).
  rewrite Hder in Hder2. injection Hder2 as <- <-.
  assert (Htr1' : trace s1 = trace s ++ EvIter it :: map EvCall calls).
  { rewrite Htr1. simpl. rewrite <- app_assoc. reflexivity. }
  destruct (inv H) as [Hi|].
  - cbv zeta in Hit.
    destruct Hit as (r & x' & evs1 & s' & Hrun & Hgo & Htr & _ & _ & Hr' & _).
    destruct (goes_on_calls _ _ _ _ _ _ _ _ _ Hgo) as [Hle Hbrk].
    eexists r, s', (EvIter it :: map EvCall calls ++ EvCall _ :: EvCheck _ _ _ _ _ :: evs1).
    split; [exact Hrun|]. split.
    { rewrite Htr, Htr1'. rewrite <- app_assoc. reflexivity. }
    split; [exact Hr'|].
    assert (Hc : forall xn e, called (EvIter it :: map EvCall calls ++ EvCall xn :: e :: evs1)
                   = calls ++ xn :: called [e] ++ called evs1).
    { intros xn e. change (EvIter it :: map EvCall calls ++ EvCall xn :: e :: evs1)
        with ([EvIter it] ++ map EvCall calls ++ [EvCall xn] ++ [e] ++ evs1).
      rewrite !called_app, called_calls. reflexivity. }
    rewrite Hc. simpl. rewrite length_app. simpl. rewrite Hlen. split; [lia|].
    intros c f' H' ->. split.
    + inversion Hgo; subst; exact HsqH.
    + split; [lia|]. intros ->. rewrite (Hbrk _ _ eq_refl). simpl. lia.
  - exists (Raise LinAlgError), s1, (EvIter it :: map EvCall calls).
    split; [exact Hit|]. split; [exact Htr1'|]. split; [exact Hr1|]. split.
    + change (EvIter it :: map EvCall calls) with ([EvIter it] ++ map EvCall calls).
      rewrite called_app, called_calls. simpl. lia.
    + intros c f' H' [=].
Qed.

Lemma iterate_calls (n : nat) :
  forall (fuel it : nat) (f_min : Q) (hess : matrix) (s : state),
  ready (refs b) n s -> square n hess ->
  exists evs,
    trace (snd (iterate obj det inv cfg b fuel it f_min hess s)) = trace s ++ evs /\
    length (called evs) <= fuel * ((n + 1) * (n + 1) + 1).
Proof.
  induction fuel as [|fuel IH]; intros it f_min hess s Hr Hsq.
  - exists []. simpl. rewrite app_nil_r. split; [reflexivity|lia].
  - destruct (iteration_calls n it f_min hess s Hr Hsq)
      as (r & s1 & evs1 & Hrun & Htr & Hr1 & Hle & Hok).
    simpl. unfold bind. rewrite Hrun.
    destruct r as [[[[|] f'] H']|e].
    + exists evs1. split; [exact Htr|]. simpl. lia.
    + destruct (Hok _ _ _ eq_refl) as (HsqH & _).
      destruct (IH (S it) f' H' s1 Hr1 HsqH) as (evs & Htr' & Hle').
      exists (evs1 ++ evs). split.
      * rewrite Htr', Htr, app_assoc. reflexivity.
      * rewrite called_app, length_app. simpl. lia.
    + exists evs1. split; [exact Htr|]. simpl. lia.
Qed.

End IterationCost.

(** X6: an outer iteration that completes has called [obj] [(n+1)^2] times
    when it leaves the loop, and [(n+1)^2] or [(n+1)^2 + 1] times when it
    goes on: [n] calls for the gradient, [n*(n+1)] for the Hessian, one at
    the candidate and at most one at the midpoint. *)
Theorem iteration_cost (obj : ndarray -> Q) (det : matrix -> Q)
    (inv : matrix -> option matrix) (cfg : config) (b : buffers)
    (n it : nat) (f_min f' : Q) (hess H' : matrix) (c : control)
    (s s' : state) :
  (forall n H Hi, square n H -> inv H = Some Hi -> square n Hi) ->
  ready (refs b) n s -> square n hess ->
  iteration obj det inv cfg b it f_min hess s = (Ok (c, f', H'), s') ->
  exists evs,
    trace s' = trace s ++ evs /\
    (n + 1) * (n + 1) <= length (called evs) <= (n + 1) * (n + 1) + 1 /\
    (c = Break -> length (called evs) = (n + 1) * (n + 1)).
Proof.
  intros inv_square Hr Hsq Hrun.
  destruct (iteration_calls obj det inv cfg b inv_square n it f_min hess s Hr Hsq)
    as (r & s2 & evs & Hrun2 & Htr & _ & Hle & Hok).
  rewrite Hrun in Hrun2. injection Hrun2 as <- <-.
  destruct (Hok _ _ _ eq_refl) as (_ & Hge & Hbrk).
  exists evs. split; [exact Htr|]. split; [lia|exact Hbrk].
Qed.

Lemma iteration_cost_witness :
  exists evs,
    trace (snd first_iteration) = trace first_iteration_state ++ evs /\
    4 <= length (called evs) <= 5.
Proof.
  assert (Hr : ready (refs run_buffers) 1 first_iteration_state)
    by (apply (@bool_decide_unpack _ (ready_dec _ _ _)); vm_compute; exact I).
  assert (Hsq : square 1 [[0%Q]])
    by (apply (@bool_decide_unpack _ (square_dec _ _)); vm_compute; exact I).
  assert (E : first_iteration
              = (Ok (Continue, first_iteration_f_min, first_iteration_hess),
                 snd first_iteration)) by (vm_compute; reflexivity).
  destruct (iteration_cost double_well det_exact inv_exact coarse_config
              run_buffers 1 0 (-2) first_iteration_f_min [[0%Q]]
              first_iteration_hess Continue first_iteration_state
              (snd first_iteration) inv_exact_square Hr Hsq E)
    as (evs & Htr & Hb & _).
  exists evs. split; [exact Htr|exact Hb].
Defined.

(** X7: a call of the optimizer on an [x0] of dimension [n] calls [obj] at
    most [1 + max_iter*((n+1)^2 + 1)] times, however it ends. *)
Theorem optimizer_cost (obj : ndarray -> Q) (det : matrix -> Q)
    (inv : matrix -> option matrix) (cfg : config) (x0 : loc) (s : state) :
  (forall n H Hi, square n H -> inv H = Some Hi -> square n Hi) ->
  let n := length (buf s x0) in
  exists evs,
    trace (snd (newton_raphson obj det inv cfg x0 s)) = trace s ++ evs /\
    length (called evs) <= 1 + max_iter cfg * ((n + 1) * (n + 1) + 1).
Proof.
  intros inv_square n. rewrite newton_raphson_allocations. fold n.
  set (L := length (heap s)).
  set (b := mkBuffers L (L + 1) (L + 2) (L + 3) (L + 4) (L + 5)).
  set (s6 := mkState (heap s ++ replicate 6 (zeros n)) (trace s)).
  pose proof (allocations_ready n s) as Hr6. cbv zeta in Hr6. fold L b s6 in Hr6.
  destruct (initial_copy_ok x0 s) as (s7 & Hcopy & F67 & B7 & Htr7).
  fold n L s6 in Hcopy, F67. fold L in B7.
  assert (Hr7 : ready (refs b) n s7) by (eapply ready_frame; [exact F67|exact Hr6]).
  set (s8 := log [EvCall (buf s x0)] s7).
  assert (Hcall : call_obj obj (x_min b) s7 = (Ok (obj (buf s x0)), s8)).
  { unfold call_obj, eval_obj, deref, emit, ret, bind. cbn [x_min b].
    rewrite B7. reflexivity. }
  destruct (iterate_calls obj det inv cfg b inv_square n (max_iter cfg) 0
              (obj (buf s x0)) (zeros2 n n) s8 (ready_log _ _ _ _ Hr7)
              (square_zeros2 n)) as (evs & Htr & Hle).
  exists (EvCall (buf s x0) :: evs). split.
  - rewrite (bind_ok _ _ _ _ _ Hcopy), (bind_ok _ _ _ _ _ Hcall). unfold bind.
    destruct (iterate obj det inv cfg b (max_iter cfg) 0 (obj (buf s x0))
                (zeros2 n n) s8) as [[u|e] s9]; cbn [snd] in Htr;
      unfold ret; cbn beta iota delta [snd];
      rewrite Htr; unfold s8; simpl; rewrite Htr7, <- app_assoc; reflexivity.
  - change (EvCall (buf s x0) :: evs) with ([EvCall (buf s x0)] ++ evs).
    rewrite called_app, length_app. simpl. lia.
Qed.

Lemma optimizer_cost_witness :
  exists evs,
    trace (snd double_well_run) = evs /\ length (called evs) <= 1 + 2 * 5.
Proof.
  destruct (optimizer_cost double_well det_exact inv_exact coarse_config 0
              (mkState [[-1]%Q] []) inv_exact_square) as (evs & Htr & Hle).
  exists evs. split; [exact Htr|exact Hle].
Defined.

(** ** Invariants of the loop *)

Section Commits.

Variable obj : ndarray -> Q.
Variable det : matrix -> Q.
Variable inv : matrix -> option matrix.
Variable cfg : config.
Variable b : buffers.
Hypothesis inv_square :
  forall n H Hi, square n H -> inv H = Some Hi -> square n Hi.

Lemma commit_sound_calls (calls : list ndarray) :
  Forall (commit_sound obj) (map EvCall calls).
Proof. apply Forall_map, Forall_forall. intros x _. exact I. Qed.

Lemma goes_on_commits it xm f_min xn H r x' evs :
  goes_on obj cfg it xm f_min xn (obj xn) H r x' evs ->
  Forall (commit_sound obj) evs /\
  (forall c f' H', r = Ok (c, f', H') -> f' = obj x').
Proof.
  intros Hgo. inversion Hgo; subst; split;
    try (intros c' f' H' [=]; subst; reflexivity);
    repeat constructor.
Qed.

Lemma iteration_commits (n it : nat) (f_min : Q) (hess : matrix) (s : state) :
  ready (refs b) n s -> square n hess ->
  exists r s' evs,
    iteration obj det inv cfg b it f_min hess s = (r, s') /\
    trace s' = trace s ++ evs /\
    Forall (commit_sound obj) evs /\
    ready (refs b) n s' /\
    forall c f' H', r = Ok (c, f', H') ->
      square n H' /\ f' = obj (buf s' (x_min b)) /\
      buf s' (x_now b) = buf s' (x_min b).
Proof.
  intros Hr Hsq.
  destruct (iteration_ok obj det inv cfg b inv_square n it f_min hess s Hr Hsq)
    as (H & s1 & calls & _ & HsqH & Hr1 & _ & Htr1 & Hit).
  destruct (inv H) as [Hi|].
  - cbv zeta in Hit.
    destruct Hit as (r & x' & evs1 & s' & Hrun & Hgo & Htr & Hnow & Hmin & Hr' & _).
    destruct (goes_on_commits _ _ _ _ _ _ _ _ Hgo) as [Hcs Hval].
    eexists r, s', (EvIter it :: map EvCall calls ++ EvCall _ :: EvCheck _ _ _ _ _ :: evs1).
    split; [exact Hrun|]. split.
    { rewrite Htr, Htr1, <- app_assoc. reflexivity. }
    split.
    { constructor; [exact I|]. apply Forall_app. split; [apply commit_sound_calls|].
      constructor; [exact I|]. constructor; [exact I|exact Hcs]. }
    split; [exact Hr'|].
    intros c f' H' E. rewrite (Hmin _ E), Hnow. split.
    + subst r. inversion Hgo; subst; exact HsqH.
    + split; [exact (Hval _ _ _ E)|reflexivity].
  - exists (Raise LinAlgError), s1, (EvIter it :: map EvCall calls).
    split; [exact Hit|]. split; [exact Htr1|]. split.
    + constructor; [exact I|apply commit_sound_calls].
    + split; [exact Hr1|]. intros c f' H' [=].
Qed.

Lemma iterate_commits (n : nat) :
  forall (fuel it : nat) (f_min : Q) (hess : matrix) (s : state),
  ready (refs b) n s -> square n hess ->
  exists evs,
    trace (snd (iterate obj det inv cfg b fuel it f_min hess s)) = trace s ++ evs /\
    Forall (commit_sound obj) evs.
Proof.
  induction fuel as [|fuel IH]; intros it f_min hess s Hr Hsq.
  - exists []. simpl. rewrite app_nil_r. split; [reflexivity|constructor].
  - destruct (iteration_commits n it f_min hess s Hr Hsq)
      as (r & s1 & evs1 & Hrun & Htr & Hcs & Hr1 & Hok).
    simpl. unfold bind. rewrite Hrun.
    destruct r as [[[[|] f'] H']|e].
    + exists evs1. split; [exact Htr|exact Hcs].
    + destruct (Hok _ _ _ eq_refl) as (HsqH & _).
      destruct (IH (S it) f' H' s1 Hr1 HsqH) as (evs & Htr' & Hcs').
      exists (evs1 ++ evs). split.
      * rewrite Htr', Htr, app_assoc. reflexivity.
      * apply Forall_app. split; assumption.
    + exists evs1. split; [exact Htr|exact Hcs].
Qed.

End Commits.

(** X8: an outer iteration that completes leaves [x_min] and the value it
    hands on as [f_min] in step: the value is [obj] at the contents of
    [x_min], and [x_now] holds the same point. *)
Theorem iteration_keeps_value_in_step (obj : ndarray -> Q) (det : matrix -> Q)
    (inv : matrix -> option matrix) (cfg : config) (b : buffers)
    (n it : nat) (f_min f' : Q) (hess H' : matrix) (c : control)
    (s s' : state) :
  (forall n H Hi, square n H -> inv H = Some Hi -> square n Hi) ->
  ready (refs b) n s -> square n hess ->
  iteration obj det inv cfg b it f_min hess s = (Ok (c, f', H'), s') ->
  f' = obj (buf s' (x_min b)) /\ buf s' (x_now b) = buf s' (x_min b).
Proof.
  intros inv_square Hr Hsq Hrun.
  destruct (iteration_commits obj det inv cfg b inv_square n it f_min hess s Hr Hsq)
    as (r & s2 & evs & Hrun2 & _ & _ & _ & Hok).
  rewrite Hrun in Hrun2. injection Hrun2 as <- <-.
  destruct (Hok _ _ _ eq_refl) as (_ & Hf & Hx). split; assumption.
Qed.

Lemma iteration_keeps_value_in_step_witness :
  first_iteration_f_min
    = double_well (buf (snd first_iteration) (x_min run_buffers)) /\
  buf (snd first_iteration) (x_now run_buffers)
    = buf (snd first_iteration) (x_min run_buffers).
Proof.
  assert (Hr : ready (refs run_buffers) 1 first_iteration_state)
    by (apply (@bool_decide_unpack _ (ready_dec _ _ _)); vm_compute; exact I).
  assert (Hsq : square 1 [[0%Q]])
    by (apply (@bool_decide_unpack _ (square_dec _ _)); vm_compute; exact I).
  assert (E : first_iteration
              = (Ok (Continue, first_iteration_f_min, first_iteration_hess),
                 snd first_iteration)) by (vm_compute; reflexivity).
  exact (iteration_keeps_value_in_step double_well det_exact inv_exact
           coarse_config run_buffers 1 0 (-2) first_iteration_f_min [[0%Q]]
           first_iteration_hess Continue first_iteration_state
           (snd first_iteration) inv_exact_square Hr Hsq E).
Defined.

(** X9: along a whole call of the optimizer, however it ends, every
    assignment of [x_min] and [f_min] in the loop stores a point together
    with the value of [obj] at that very point. *)
Theorem commits_carry_their_value (obj : ndarray -> Q) (det : matrix -> Q)
    (inv : matrix -> option matrix) (cfg : config) (x0 : loc) (s : state) :
  (forall n H Hi, square n H -> inv H = Some Hi -> square n Hi) ->
  exists evs,
    trace (snd (newton_raphson obj det inv cfg x0 s)) = trace s ++ evs /\
    Forall (commit_sound obj) evs.
Proof.
  intros inv_square. rewrite newton_raphson_allocations.
  set (n := length (buf s x0)). set (L := length (heap s)).
  set (b := mkBuffers L (L + 1) (L + 2) (L + 3) (L + 4) (L + 5)).
  set (s6 := mkState (heap s ++ replicate 6 (zeros n)) (trace s)).
  pose proof (allocations_ready n s) as Hr6. cbv zeta in Hr6. fold L b s6 in Hr6.
  destruct (initial_copy_ok x0 s) as (s7 & Hcopy & F67 & B7 & Htr7).
  fold n L s6 in Hcopy, F67. fold L in B7.
  assert (Hr7 : ready (refs b) n s7) by (eapply ready_frame; [exact F67|exact Hr6]).
  set (s8 := log [EvCall (buf s x0)] s7).
  assert (Hcall : call_obj obj (x_min b) s7 = (Ok (obj (buf s x0)), s8)).
  { unfold call_obj, eval_obj, deref, emit, ret, bind. cbn [x_min b].
    rewrite B7. reflexivity. }
  destruct (iterate_commits obj det inv cfg b inv_square n (max_iter cfg) 0
              (obj (buf s x0)) (zeros2 n n) s8 (ready_log _ _ _ _ Hr7)
              (square_zeros2 n)) as (evs & Htr & Hcs).
  exists (EvCall (buf s x0) :: evs). split.
  - rewrite (bind_ok _ _ _ _ _ Hcopy), (bind_ok _ _ _ _ _ Hcall). unfold bind.
    destruct (iterate obj det inv cfg b (max_iter cfg) 0 (obj (buf s x0))
                (zeros2 n n) s8) as [[u|e] s9]; cbn [snd] in Htr;
      unfold ret; cbn beta iota delta [snd];
      rewrite Htr; unfold s8; simpl; rewrite Htr7, <- app_assoc; reflexivity.
  - constructor; [exact I|exact Hcs].
Qed.

Lemma commits_carry_their_value_witness :
  exists evs,
    trace (snd double_well_run) = evs /\ Forall (commit_sound double_well) evs.
Proof.
  destruct (commits_carry_their_value double_well det_exact inv_exact
              coarse_config 0 (mkState [[-1]%Q] []) inv_exact_square)
    as (evs & Htr & Hcs).
  exists evs. split; [exact Htr|exact Hcs].
Defined.

(** ** Edge cases *)

(** X10: with [max_iter = 0] the optimizer calls [obj] once, at the contents
    of [x0], tests nothing, and returns a fresh vector that holds a copy of
    [x0]. *)
Theorem zero_iterations (obj : ndarray -> Q) (det : matrix -> Q)
    (inv : matrix -> option matrix) (cfg : config) (x0 : loc) (s : state) :
  max_iter cfg = 0 ->
  exists s',
    newton_raphson obj det inv cfg x0 s = (Ok (length (heap s)), s') /\
    buf s' (length (heap s)) = buf s x0 /\
    trace s' = trace s ++ [EvCall (buf s x0)].
Proof.
  intros Hmax. rewrite newton_raphson_allocations, Hmax.
  set (n := length (buf s x0)). set (L := length (heap s)).
  set (b := mkBuffers L (L + 1) (L + 2) (L + 3) (L + 4) (L + 5)).
  set (s6 := mkState (heap s ++ replicate 6 (zeros n)) (trace s)).
  destruct (initial_copy_ok x0 s) as (s7 & Hcopy & _ & B7 & Htr7).
  fold n L s6 in Hcopy. fold L in B7.
  set (s8 := log [EvCall (buf s x0)] s7).
  assert (Hcall : call_obj obj (x_min b) s7 = (Ok (obj (buf s x0)), s8)).
  { unfold call_obj, eval_obj, deref, emit, ret, bind. cbn [x_min b].
    rewrite B7. reflexivity. }
  exists s8. split.
  - rewrite (bind_ok _ _ _ _ _ Hcopy), (bind_ok _ _ _ _ _ Hcall). reflexivity.
  - unfold s8. rewrite buf_log. split; [exact B7|]. simpl. rewrite Htr7. reflexivity.
Qed.

Lemma zero_iterations_witness :
  exists s',
    create_optimizer double_well det_exact inv_exact 0 1 1 1 0
      (mkState [[-1]%Q] []) = (Ok 1, s') /\
    buf s' 1 = [-1]%Q /\
    trace s' = [EvCall [-1]%Q].
Proof.
  exact (zero_iterations double_well det_exact inv_exact (mkConfig 0 1 1 1) 0
           (mkState [[-1]%Q] []) eq_refl).
Defined.

(** X11: for a positive [grad_step] the step of both estimators is
    [grad_step] itself at every coordinate that is at most 1, the negative
    ones included, and [grad_step] times the coordinate from 1 on. *)
Theorem step_absolute_then_relative (h x : Q) :
  (0 < h)%Q ->
  ((x <= 1)%Q -> (step_of h x == h)%Q) /\
  ((1 <= x)%Q -> (step_of h x == h * x)%Q).
Proof.
  intros Hh. unfold step_of.
  destruct (fmax_cases (h * x) h) as [[-> Hle]|[-> Hle]]; split; intros Hx;
    try reflexivity.
  - apply Qle_antisym; [|exact Hle].
    rewrite <- (Qmult_1_r h) at 2. apply Qmult_le_l; assumption.
  - apply Qle_antisym; [|exact Hle].
    rewrite <- (Qmult_1_r h) at 1. apply Qmult_le_l; assumption.
Qed.

Lemma step_absolute_then_relative_witness :
  (step_of (1 # 100000) (-3) == 1 # 100000)%Q /\
  (step_of (1 # 100000) 3 == (1 # 100000) * 3)%Q.
Proof.
  destruct (step_absolute_then_relative (1 # 100000) (-3)) as [Hlow _];
    [reflexivity|].
  destruct (step_absolute_then_relative (1 # 100000) 3) as [_ Hhigh];
    [reflexivity|].
  split; [apply Hlow; discriminate|apply Hhigh; discriminate].
Defined.

(** ** The working memory that is never used *)

Section Scratch.

Variable obj : ndarray -> Q.
Variable det : matrix -> Q.
Variable inv : matrix -> option matrix.
Variable cfg : config.
Variable b : buffers.
Variable P : loc -> Prop.
Hypothesis P_x_min : P (x_min b).
Hypothesis P_x_now : P (x_now b).
Hypothesis P_x_hess : P (x_hess b).
Hypothesis P_grad : P (grad b).
Hypothesis P_grad_hess : P (grad_hess b).

Lemma writes_in_iteration_but_x_grad (it : nat) (f_min : Q) (hess : matrix) :
  writes_in P (iteration obj det inv cfg b it f_min hess).
Proof.
  pose proof (fun f0 => writes_in_num_grad obj P
                          (x_min b) (grad b) (x_grad b) (grad_step cfg) f0
                          P_x_min P_grad).
  pose proof (fun H => writes_in_num_hess obj P
                         (x_min b) (grad b) (x_grad b) (x_hess b) (grad_hess b)
                         (grad_step cfg) H P_x_hess P_grad_hess).
  pose proof P_x_min. pose proof P_x_now.
  unfold iteration, derivatives, direction, update, converged, commit,
    line_search, linalg_inv, view, call_obj, eval_obj.
  apply writes_in_bind; [auto with footprint|intros _].
  apply writes_in_bind; [auto 10 with footprint|intros H'].
  apply writes_in_bind.
  { destruct (inv H'); auto 20 with footprint. }
  intros d. apply writes_in_bind; [auto 20 with footprint|intros f_now].
  apply writes_in_bind.
  { apply writes_in_bind; [auto with footprint|intros xn].
    apply writes_in_bind; [auto with footprint|intros xm].
    apply writes_in_bind; [auto with footprint|intros _].
    destruct (Qltb _ _); [auto with footprint|].
    apply writes_in_bind; [auto with footprint|intros diff].
    apply writes_in_bind; [auto with footprint|intros m].
    destruct (Qltb _ _); auto with footprint. }
  intros [|].
  - auto 20 with footprint.
  - apply writes_in_bind; [|auto 20 with footprint].
    destruct (Qgeb _ _); [|auto with footprint].
    apply writes_in_bind; [auto with footprint|intros xm].
    apply writes_in_bind; [auto with footprint|intros xn].
    apply writes_in_bind; [auto with footprint|intros sm].
    apply writes_in_bind; [auto 10 with footprint|intros f_step].
    destruct (Qltb _ _); auto 10 with footprint.
Qed.

Lemma writes_in_iterate_but_x_grad :
  forall fuel it f_min hess,
    writes_in P (iterate obj det inv cfg b fuel it f_min hess).
Proof.
  induction fuel as [|fuel IH]; intros it f_min hess; simpl.
  - apply writes_in_ret.
  - apply writes_in_bind; [apply writes_in_iteration_but_x_grad|].
    intros [[[|] f'] H']; [apply writes_in_ret|apply IH].
Qed.

End Scratch.

(** X12: the vector the optimizer allocates as [x_grad] is never written:
    however the call ends, it still holds the zeros it was allocated with.
    Both estimators rebind the name to a view of another vector before they
    use it. *)
Theorem x_grad_is_never_written (obj : ndarray -> Q) (det : matrix -> Q)
    (inv : matrix -> option matrix) (cfg : config) (x0 : loc) (s : state) :
  buf (snd (newton_raphson obj det inv cfg x0 s)) (length (heap s) + 2)
  = zeros (length (buf s x0)).
Proof.
  rewrite newton_raphson_allocations.
  set (n := length (buf s x0)). set (L := length (heap s)).
  set (b := mkBuffers L (L + 1) (L + 2) (L + 3) (L + 4) (L + 5)).
  set (s6 := mkState (heap s ++ replicate 6 (zeros n)) (trace s)).
  set (P := fun l : loc => l <> L + 2).
  assert (Hw : writes_in P
            (exec for_range 0 n (fun i => do v <- getitem x0 i; setitem (x_min b) i v);
             do f_min <- call_obj obj (x_min b);
             exec iterate obj det inv cfg b (max_iter cfg) 0 f_min (zeros2 n n);
             ret (x_min b))).
  { assert (P1 : P (x_min b)) by (unfold P; simpl; lia).
    apply writes_in_bind; [auto 10 with footprint|intros _].
    apply writes_in_bind; [apply writes_in_call_obj|intros f_min].
    apply writes_in_bind; [|intros _; apply writes_in_ret].
    apply writes_in_iterate_but_x_grad; unfold P; simpl; lia. }
  destruct (Hw s6) as (_ & Hkeep & _).
  unfold buf. rewrite (Hkeep (L + 2)) by (unfold P; tauto).
  exact (proj2 (buf_allocated n 2 s (trace s) ltac:(lia))).
Qed.
